(** * mutwo.ext-music: Western pitch arithmetic and indicator collections

    A shallow embedding of
    - [mutwo/music_parameters/pitches/WesternPitch.py],
    - [mutwo/ext/parameters/playing_indicators.py],
    - [mutwo/ext/parameters/notation_indicators.py]
    together with the properties their specification states about them.

    Conventions of the embedding.
    - Python [int] is [Z]; [//] and [%] with a positive divisor are
      [Z.div] and [Z.modulo] (both floor).
    - [fractions.Fraction] is [Q] kept in lowest terms ([Qred]), as the
      Python class does after every operation; dictionary lookup on a
      numeric key compares by value ([Qeq_bool]), as Python hashing of
      equal numbers does.
    - A Python [float] is modelled by the exact rational it stands for,
      and arithmetic on floats is only modelled where it is exact: the
      statements about the value of [float(x)] are made of the numbers a
      double holds ([is_double]), the literal [0.001] is the double
      itself ([thousandth]), and [from_midi_pitch_number] is embedded on
      whole numbers.
    - A raised exception is the [Raise] alternative of [result]; warnings
      are collected in a list next to the result.
    - Objects that are mutated in place and reached through an attribute
      (the indicators of a collection) live in a heap of locations. *)

From Stdlib Require Import ZArith QArith Qabs Qround Lia Lqa.
From stdpp Require Import gmap strings list.

Open Scope Z_scope.

(** ** Exceptions and results *)

Inductive exception : Type :=
| KeyError
| IndexError
| ValueError
| TypeError
| NotImplementedError
| FrozenInstanceError.

Inductive result (A : Type) : Type :=
| Ok (a : A)
| Raise (e : exception).

Arguments Ok {A} a.
Arguments Raise {A} e.

Definition bind {A B : Type} (r : result A) (k : A -> result B) : result B :=
  match r with
  | Ok a => k a
  | Raise e => Raise e
  end.

Notation "'let?' x ':=' r 'in' k" := (bind r (fun x => k))
  (at level 10, x name, r at level 100, k at level 200).

Definition of_option {A : Type} (e : exception) (o : option A) : result A :=
  match o with
  | Some a => Ok a
  | None => Raise e
  end.

(** ** Python dictionaries with insertion order

    The tables of the pitch module are consulted both by key and in
    iteration order ([.keys()], [.values()]), so they are association
    lists in insertion order. *)

Fixpoint dict_get {V : Type} (d : list (string * V)) (k : string) : option V :=
  match d with
  | [] => None
  | (k', v) :: d' => if String.eqb k' k then Some v else dict_get d' k
  end.

Fixpoint dict_get_num {V : Type} (d : list (Q * V)) (k : Q) : option V :=
  match d with
  | [] => None
  | (k', v) :: d' => if Qeq_bool k' k then Some v else dict_get_num d' k
  end.

(** Lookup by a key that is a pair of strings. *)
Fixpoint dict_get_pair {V : Type} (d : list ((string * string) * V))
  (k : string * string) : option V :=
  match d with
  | [] => None
  | (k', v) :: d' =>
      if String.eqb (fst k') (fst k) && String.eqb (snd k') (snd k)
      then Some v
      else dict_get_pair d' k
  end.

Definition dict_keys {K V : Type} (d : list (K * V)) : list K := map fst d.
Definition dict_values {K V : Type} (d : list (K * V)) : list V := map snd d.

(** [tuple.index(x)]: position of the first occurrence. *)
Fixpoint tuple_index (t : list string) (x : string) : option nat :=
  match t with
  | [] => None
  | y :: t' =>
      if String.eqb y x then Some O
      else option_map S (tuple_index t' x)
  end.

(** ** Numbers *)

(** A float is held as the number it stands for.  The numbers a double
    holds are [m * 2 ^ e] with [|m| < 2 ^ 53] and [-1074 <= e <= 971]. *)
Definition is_double (x : Q) : Prop :=
  exists m e : Z,
    Z.abs m < 2 ^ 53 /\ -1074 <= e <= 971
    /\ (x == inject_Z m * Qpower 2 e)%Q.

(** [float(x)] of an exact value.  On a number a double holds the
    conversion returns that number; on any other number Python returns
    the nearest double, which is kept here as the exact value.  Every
    statement about the value of a converted number is therefore made of
    the numbers a double holds. *)
Definition float (x : Q) : Q := Qred x.

(** The literal [0.001]: the double next to a thousandth,
    [1152921504606847 / 2 ^ 60], a little more than 1/1000.  A
    [Fraction] is compared with it exactly, and for a float [x] the
    difference [round(x) - x] is exact. *)
Definition thousandth : Q := 1152921504606847 # 1152921504606846976.

(** [int(x)]: truncation towards zero. *)
Definition int (x : Q) : Z := Z.quot (Qnum x) (Zpos (Qden x)).

(** [round(x)]: nearest integer, a tie going to the even neighbour. *)
Definition round (x : Q) : Z :=
  let f := Qfloor x in
  match Qcompare (x - inject_Z f)%Q (1 # 2)%Q with
  | Lt => f
  | Gt => f + 1
  | Eq => if Z.even f then f else f + 1
  end.

(** [x // m]: the floor of the quotient. *)
Definition floor_div (x m : Q) : Z := Qfloor (x / m).

(** [x % m]: what the floor quotient leaves. *)
Definition floor_mod (x m : Q) : Q := Qred (x - inject_Z (floor_div x m) * m).

(** ** Constants of [music_parameters.constants] *)

(** Modelled from the spec: [DIATONIC_PITCH_NAME_TO_PITCH_CLASS_DICT] is
    declared outside the sources; the specification gives the fixed
    ascending skeleton c=0, d=2, e=4, f=5, g=7, a=9, b=11. *)
Definition DIATONIC_PITCH_NAME_TO_PITCH_CLASS_DICT : list (string * Z) :=
  [("c", 0); ("d", 2); ("e", 4); ("f", 5); ("g", 7); ("a", 9); ("b", 11)]%string.

(** Modelled from the spec: [ASCENDING_DIATONIC_PITCH_NAME_TUPLE] is
    declared outside the sources; the specification fixes the ascending
    seven-letter cycle c < d < e < f < g < a < b. *)
Definition ASCENDING_DIATONIC_PITCH_NAME_TUPLE : list string :=
  ["c"; "d"; "e"; "f"; "g"; "a"; "b"]%string.

(** Modelled from the spec: the seven-letter cycle. *)
Definition DIATONIC_PITCH_CLASS_COUNT : Z := 7.

(** Modelled from the spec: the fixed 12-step chromatic count. *)
Definition CHROMATIC_PITCH_CLASS_COUNT : Z := 12.

(** ** Helpers of [core_utilities] *)

(** Modelled from the spec: [core_utilities.find_closest_index] is
    declared outside the sources.  The specification asks for the entry
    that is numerically closest, a tie going to the entry that comes
    first in the fixed order of the sequence.  [None] stands for the
    failure on an empty sequence. *)
Fixpoint find_closest_from (item : Q) (l : list Q) (i best_i : nat) (best : Q)
  : nat :=
  match l with
  | [] => best_i
  | x :: l' =>
      if Qlt_le_dec (Qabs (item - x)) (Qabs (item - best))
      then find_closest_from item l' (S i) i x
      else find_closest_from item l' (S i) best_i best
  end.

Definition find_closest_index (item : Q) (sequence : list Q) : option nat :=
  match sequence with
  | [] => None
  | x :: l => Some (find_closest_from item l 1%nat 0%nat x)
  end.

(** Modelled from the spec: [core_utilities.find_closest_item], the entry
    at [find_closest_index]. *)
Definition find_closest_item (item : Q) (sequence : list Q) : option Q :=
  match find_closest_index item sequence with
  | Some i => nth_error sequence i
  | None => None
  end.

(** ** Strings *)

(** [s[0]]: the first character, [IndexError] on the empty string. *)
Definition str_first (s : string) : result string :=
  match s with
  | EmptyString => Raise IndexError
  | String c _ => Ok (String c EmptyString)
  end.

(** [s[1:]]: everything after the first character (never fails). *)
Definition str_rest (s : string) : string :=
  match s with
  | EmptyString => EmptyString
  | String _ r => r
  end.

(** ** Intervals, operands and pitches *)

(** The part of [music_parameters.WesternPitchInterval] the pitch reads. *)
Record WesternPitchInterval : Type := {
  interval_type : Z;
  is_interval_falling : bool;
  interval_quality_cent_deviation : Q
}.

(** Modelled from the spec: [WesternPitchInterval.inverse_direction] is
    declared outside the sources; it returns a direction-flipped copy. *)
Definition inverse_direction (i : WesternPitchInterval) : WesternPitchInterval :=
  {| interval_type := interval_type i;
     is_interval_falling := negb (is_interval_falling i);
     interval_quality_cent_deviation := interval_quality_cent_deviation i |}.

(** What [add] and [subtract] accept:
    [typing.Union[str, PitchInterval, Real]]. *)
Inductive interval_operand : Type :=
| OfStr (s : string)
| OfReal (x : Q)
| OfWesternPitchInterval (i : WesternPitchInterval)
| OfPitchInterval (cents : Q).

(** [isinstance(pitch_interval, music_parameters.WesternPitchInterval)] *)
Definition is_WesternPitchInterval (p : interval_operand) : bool :=
  match p with
  | OfWesternPitchInterval _ => true
  | _ => false
  end.

(** The constructor argument: [typing.Union[Real, str]], or anything else. *)
Inductive PitchClassOrPitchClassName : Type :=
| PitchClass (x : Q)
| PitchClassName (s : string)
| NeitherRealNorStr.

(** The state of a [WesternPitch] that the module reads and writes.  The
    concert pitch is only used for frequencies and is left out. *)
Record WesternPitch : Type := {
  _pitch_class : Q;
  octave : Z;
  _pitch_class_name : string
}.

Inductive warning : Type :=
| RuntimeWarning.

(** The public operations that change a pitch. *)
Inductive operation : Type :=
| SetPitchClassName (pitch_class_name : string)
| SetPitchClass (pitch_class : Q)
| Add (pitch_interval : interval_operand)
| Subtract (pitch_interval : interval_operand).

(** A result together with the warnings emitted on the way. *)
Definition outcome (A : Type) : Type := (result A * list warning)%type.

Definition silent {A : Type} (r : result A) : outcome A := (r, []).

(** ** [WesternPitch]

    The tables of [music_parameters.configurations] and
    [music_parameters.constants] that the sources only read, and the
    classes they call into, are the parameters of the development. *)

Section WesternPitch.

Variable ACCIDENTAL_NAME_TO_PITCH_CLASS_MODIFICATION_DICT : list (string * Q).
Variable PITCH_CLASS_MODIFICATION_TO_ACCIDENTAL_NAME_DICT : list (Q * string).
Variable DIATONIC_PITCH_CLASS_NAME_PAIR_TO_COMPENSATION_IN_CENTS_DICT :
  list ((string * string) * Q).

(** [music_parameters.WesternPitchInterval(...)] of a string and of a number. *)
Variable WesternPitchInterval_of_str : string -> result WesternPitchInterval.
Variable WesternPitchInterval_of_real : Q -> result WesternPitchInterval.

(** [super().add] and [super().subtract] of [EqualDividedOctavePitch]. *)
Variable super_add : WesternPitch -> interval_operand -> result WesternPitch.
Variable super_subtract : WesternPitch -> interval_operand -> result WesternPitch.


Definition _accidental_to_pitch_class_modifications (accidental : string)
  : result Q :=
  match dict_get ACCIDENTAL_NAME_TO_PITCH_CLASS_MODIFICATION_DICT accidental with
  | Some m => Ok m
  | None => Raise NotImplementedError
  end.

Definition _pitch_class_name_to_pitch_class (pitch_class_name : string)
  : result Q :=
  let? diatonic_pitch_class_name := str_first pitch_class_name in
  let accidental := str_rest pitch_class_name in
  let? diatonic_pitch_class :=
    of_option KeyError
      (dict_get DIATONIC_PITCH_NAME_TO_PITCH_CLASS_DICT diatonic_pitch_class_name) in
  let? pitch_class_modification :=
    _accidental_to_pitch_class_modifications accidental in
  Ok (float (inject_Z diatonic_pitch_class + pitch_class_modification)).

Definition _difference_to_closest_diatonic_pitch_to_accidental
  (difference_to_closest_diatonic_pitch : Q) : result string :=
  let? closest_pitch_class_modification :=
    of_option IndexError
      (find_closest_item difference_to_closest_diatonic_pitch
         (dict_keys PITCH_CLASS_MODIFICATION_TO_ACCIDENTAL_NAME_DICT)) in
  of_option KeyError
    (dict_get_num PITCH_CLASS_MODIFICATION_TO_ACCIDENTAL_NAME_DICT
       closest_pitch_class_modification).

Definition _pitch_class_to_pitch_class_name (pitch_class : Q) : result string :=
  let diatonic_pitch_classes :=
    dict_values DIATONIC_PITCH_NAME_TO_PITCH_CLASS_DICT in
  let? closest_diatonic_pitch_class_index :=
    of_option IndexError
      (find_closest_index pitch_class (map inject_Z diatonic_pitch_classes)) in
  let? diatonic_pitch_class :=
    of_option IndexError
      (nth_error diatonic_pitch_classes closest_diatonic_pitch_class_index) in
  let? diatonic_pitch :=
    of_option IndexError
      (nth_error (dict_keys DIATONIC_PITCH_NAME_TO_PITCH_CLASS_DICT)
         closest_diatonic_pitch_class_index) in
  let accidental_adjustments := (pitch_class - inject_Z diatonic_pitch_class)%Q in
  let? accidental :=
    _difference_to_closest_diatonic_pitch_to_accidental accidental_adjustments in
  Ok (diatonic_pitch +:+ accidental).

Definition _pitch_class_or_pitch_class_name_to_pitch_class_and_pitch_class_name
  (pitch_class_or_pitch_class_name : PitchClassOrPitchClassName)
  : result (Q * string) :=
  match pitch_class_or_pitch_class_name with
  | PitchClass x =>
      let pitch_class := float x in
      let? pitch_class_name := _pitch_class_to_pitch_class_name x in
      Ok (pitch_class, pitch_class_name)
  | PitchClassName s =>
      let? pitch_class := _pitch_class_name_to_pitch_class s in
      Ok (pitch_class, s)
  | NeitherRealNorStr => Raise TypeError
  end.

(** [WesternPitch.__init__].  The initialiser of the base class, declared
    outside the sources, stores the pitch class and the octave; the name
    is stored last. *)
Definition __init__
  (pitch_class_or_pitch_class_name : PitchClassOrPitchClassName) (octave : Z)
  : result WesternPitch :=
  let? both :=
    _pitch_class_or_pitch_class_name_to_pitch_class_and_pitch_class_name
      pitch_class_or_pitch_class_name in
  Ok {| _pitch_class := fst both;
        octave := octave;
        _pitch_class_name := snd both |}.

(** *** Properties *)

Definition pitch_class_name (self : WesternPitch) : string :=
  _pitch_class_name self.

Definition diatonic_pitch_class_name (self : WesternPitch) : result string :=
  str_first (pitch_class_name self).

Definition accidental_name (self : WesternPitch) : string :=
  str_rest (pitch_class_name self).

(** [pitch_class_name.setter] *)
Definition set_pitch_class_name (self : WesternPitch) (pitch_class_name : string)
  : result WesternPitch :=
  let? pitch_class := _pitch_class_name_to_pitch_class pitch_class_name in
  Ok {| _pitch_class := pitch_class;
        octave := octave self;
        _pitch_class_name := pitch_class_name |}.

(** [pitch_class.setter] *)
Definition set_pitch_class (self : WesternPitch) (pitch_class : Q)
  : result WesternPitch :=
  let? pitch_class_name := _pitch_class_to_pitch_class_name pitch_class in
  Ok {| _pitch_class := pitch_class;
        octave := octave self;
        _pitch_class_name := pitch_class_name |}.

(** *** Private methods *)

Definition _parse_pitch_interval (pitch_interval : interval_operand)
  : result interval_operand :=
  match pitch_interval with
  | OfStr s =>
      let? i := WesternPitchInterval_of_str s in
      Ok (OfWesternPitchInterval i)
  | OfReal x =>
      if Qlt_le_dec (Qabs (inject_Z (round x) - x)) thousandth
      then
        let? i := WesternPitchInterval_of_real x in
        Ok (OfWesternPitchInterval i)
      else Ok (OfReal x)
  | other => Ok other
  end.

(** [(operator.add, operator.sub)[is_interval_falling]] on integers ... *)
Definition _western_pitch_interval_to_operator_int
  (western_pitch_interval : WesternPitchInterval) (a b : Z) : Z :=
  if is_interval_falling western_pitch_interval then a - b else a + b.

(** ... and on fractions. *)
Definition _western_pitch_interval_to_operator
  (western_pitch_interval : WesternPitchInterval) (a b : Q) : Q :=
  if is_interval_falling western_pitch_interval
  then Qred (a - b) else Qred (a + b).

Definition _get_new_diatonic_pitch_class_name_and_octave_count
  (self : WesternPitch) (western_pitch_interval_to_add : WesternPitchInterval)
  : result (string * Z) :=
  let? letter := diatonic_pitch_class_name self in
  let? current_diatonic_pitch_class_name_index :=
    of_option ValueError
      (tuple_index ASCENDING_DIATONIC_PITCH_NAME_TUPLE letter) in
  let diatonic_pitch_class_name_index_difference :=
    interval_type western_pitch_interval_to_add - 1 in
  let absolute_new_diatonic_pitch_class_name_index :=
    _western_pitch_interval_to_operator_int western_pitch_interval_to_add
      (Z.of_nat current_diatonic_pitch_class_name_index)
      diatonic_pitch_class_name_index_difference in
  let new_diatonic_pitch_class_name_index :=
    absolute_new_diatonic_pitch_class_name_index mod DIATONIC_PITCH_CLASS_COUNT in
  let octave_count :=
    absolute_new_diatonic_pitch_class_name_index / DIATONIC_PITCH_CLASS_COUNT in
  let? new_diatonic_pitch_class_name :=
    of_option IndexError
      (nth_error ASCENDING_DIATONIC_PITCH_NAME_TUPLE
         (Z.to_nat new_diatonic_pitch_class_name_index)) in
  Ok (new_diatonic_pitch_class_name, octave_count).

Definition _get_new_pitch_class_modification
  (self : WesternPitch) (western_pitch_interval_to_add : WesternPitchInterval)
  (new_diatonic_pitch_class_name : string) : result Q :=
  let? letter := diatonic_pitch_class_name self in
  let key :=
    if is_interval_falling western_pitch_interval_to_add
    then (new_diatonic_pitch_class_name, letter)
    else (letter, new_diatonic_pitch_class_name) in
  let? compensation :=
    of_option KeyError
      (dict_get_pair
         DIATONIC_PITCH_CLASS_NAME_PAIR_TO_COMPENSATION_IN_CENTS_DICT key) in
  let added_cent_deviation :=
    (interval_quality_cent_deviation western_pitch_interval_to_add
     + compensation)%Q in
  let added_pitch_class_modification :=
    Qred (inject_Z (int added_cent_deviation) / 100) in
  let? modification :=
    of_option KeyError
      (dict_get ACCIDENTAL_NAME_TO_PITCH_CLASS_MODIFICATION_DICT
         (accidental_name self)) in
  Ok (_western_pitch_interval_to_operator western_pitch_interval_to_add
        modification added_pitch_class_modification).

Definition _add_western_pitch_interval
  (self : WesternPitch) (western_pitch_interval_to_add : WesternPitchInterval)
  : outcome WesternPitch :=
  match _get_new_diatonic_pitch_class_name_and_octave_count
          self western_pitch_interval_to_add with
  | Raise e => silent (Raise e)
  | Ok (new_diatonic_pitch_class_name, octave_count) =>
      match _get_new_pitch_class_modification
              self western_pitch_interval_to_add
              new_diatonic_pitch_class_name with
      | Raise e => silent (Raise e)
      | Ok new_pitch_class_modification =>
          match dict_get_num PITCH_CLASS_MODIFICATION_TO_ACCIDENTAL_NAME_DICT
                  new_pitch_class_modification with
          | None =>
              (super_add self
                 (OfWesternPitchInterval western_pitch_interval_to_add),
               [RuntimeWarning])
          | Some new_accidental =>
              let new_pitch_class_name :=
                new_diatonic_pitch_class_name +:+ new_accidental in
              silent
                (let? renamed := set_pitch_class_name self new_pitch_class_name in
                 Ok {| _pitch_class := _pitch_class renamed;
                       octave := octave renamed + octave_count;
                       _pitch_class_name := _pitch_class_name renamed |})
          end
      end
  end.

(** *** Public methods

    [add_copy_option] either mutates [self] or applies the method to a
    deep copy; either way the pitch handed back is the one computed
    here. *)

Definition add (self : WesternPitch) (pitch_interval : interval_operand)
  : outcome WesternPitch :=
  match _parse_pitch_interval pitch_interval with
  | Raise e => silent (Raise e)
  | Ok (OfWesternPitchInterval i) => _add_western_pitch_interval self i
  | Ok other => silent (super_add self other)
  end.

Definition subtract (self : WesternPitch) (pitch_interval : interval_operand)
  : outcome WesternPitch :=
  match _parse_pitch_interval pitch_interval with
  | Raise e => silent (Raise e)
  | Ok (OfWesternPitchInterval i) =>
      add self (OfWesternPitchInterval (inverse_direction i))
  | Ok other => silent (super_subtract self other)
  end.

(** [is_microtonal]: the offset of the accidental is off the chromatic
    grid. *)
Definition is_microtonal (self : WesternPitch) : result bool :=
  let? pitch_modification :=
    of_option KeyError
      (dict_get ACCIDENTAL_NAME_TO_PITCH_CLASS_MODIFICATION_DICT
         (accidental_name self)) in
  Ok (negb (Qeq_bool (floor_mod pitch_modification 1) 0)).

(** [from_midi_pitch_number] of a whole MIDI number, a Python [int], on
    which [-], [%] and [//] are those of the integers. *)
Definition from_midi_pitch_number (midi_pitch_number : Z) : result WesternPitch :=
  let pitch_number := midi_pitch_number - CHROMATIC_PITCH_CLASS_COUNT in
  let pitch_class_number := pitch_number mod CHROMATIC_PITCH_CLASS_COUNT in
  let octave_number :=
    int (inject_Z (pitch_number / CHROMATIC_PITCH_CLASS_COUNT)) in
  __init__ (PitchClass (inject_Z pitch_class_number)) octave_number.

(** One public operation on a pitch, and a run of them that ends with
    the first exception; warnings are dropped. *)
Definition perform (self : WesternPitch) (op : operation) : result WesternPitch :=
  match op with
  | SetPitchClassName pitch_class_name =>
      set_pitch_class_name self pitch_class_name
  | SetPitchClass pitch_class => set_pitch_class self pitch_class
  | Add pitch_interval => fst (add self pitch_interval)
  | Subtract pitch_interval => fst (subtract self pitch_interval)
  end.

Fixpoint perform_all (operations : list operation) (self : WesternPitch)
  : result WesternPitch :=
  match operations with
  | [] => Ok self
  | op :: rest => let? next := perform self op in perform_all rest next
  end.

End WesternPitch.

(** ** An instance of the parameters

    Concrete tables and collaborators, on which the definitions above
    can be run. *)

(** Modelled from the spec: the accidental table is declared outside the
    sources.  The specification names the vocabulary natural, sharp, flat,
    quarter-sharp, quarter-flat, double-sharp and double-flat, each with
    a signed rational offset in semitones. *)
Definition accidental_table : list (string * Q) :=
  [("", 0); ("s", 1); ("f", -1 # 1); ("qs", 1 # 2); ("qf", -1 # 2);
   ("ss", 2); ("ff", -2 # 1)]%string%Q.

(** Modelled from the spec: the same mapping read from offset to name. *)
Definition modification_table : list (Q * string) :=
  map (fun entry => (snd entry, fst entry)) accidental_table.

(** Semitones of the default (major or perfect) interval of [steps]
    diatonic steps within one octave. *)
Definition default_semitones (steps : Z) : Z :=
  nth (Z.to_nat steps) (dict_values DIATONIC_PITCH_NAME_TO_PITCH_CLASS_DICT) 0.

(** Modelled from the spec: the compensation table is declared outside the
    sources; it holds, per ordered pair of letters, how many cents the two
    letters sit apart beyond the plain diatonic skeleton: the default
    interval of their step distance minus their distance on the skeleton. *)
Definition compensation_table : list ((string * string) * Q) :=
  flat_map
    (fun a =>
       map
         (fun b =>
            let steps := (Z.of_nat (fst b) - Z.of_nat (fst a)) mod 7 in
            let apart := (snd (snd b) - snd (snd a)) mod 12 in
            ((fst (snd a), fst (snd b)),
             inject_Z (100 * (default_semitones steps - apart))))
         (combine (seq 0 7) DIATONIC_PITCH_NAME_TO_PITCH_CLASS_DICT))
    (combine (seq 0 7) DIATONIC_PITCH_NAME_TO_PITCH_CLASS_DICT).

(** Signed size of an interval in semitones. *)
Definition interval_semitones (i : WesternPitchInterval) : Q :=
  let steps := interval_type i - 1 in
  let size :=
    (inject_Z (12 * (steps / 7) + default_semitones (steps mod 7))
     + interval_quality_cent_deviation i / 100)%Q in
  if is_interval_falling i then Qred (- size) else Qred size.

(** A constructor of an interval from a number of semitones, to run the
    definitions on: the perfect, major or minor interval of that many
    semitones, the tritone as an augmented fourth.  The constructor of
    the library is declared outside the sources and the specification
    does not describe it; it is a parameter of every statement. *)
Definition interval_of_real (x : Q) : result WesternPitchInterval :=
  let semitones := Z.abs (round x) in
  let within := Z.to_nat (semitones mod 12) in
  let steps := nth within [0; 1; 1; 2; 2; 3; 3; 4; 5; 5; 6; 6] 0 in
  let deviation :=
    nth within [0; -100; 0; -100; 0; 0; 100; 0; -100; 0; -100; 0] 0 in
  Ok {| interval_type := 1 + 7 * (semitones / 12) + steps;
        is_interval_falling := negb (Qle_bool 0 x);
        interval_quality_cent_deviation := inject_Z deviation |}.

(** Modelled from the spec: an interval parsed from its name; the names
    of the default intervals up to the octave are known. *)
Definition interval_of_str (s : string) : result WesternPitchInterval :=
  match dict_get
          [("p1", 1); ("M2", 2); ("M3", 3); ("p4", 4); ("p5", 5);
           ("M6", 6); ("M7", 7); ("p8", 8)]%string s with
  | Some t =>
      Ok {| interval_type := t;
            is_interval_falling := false;
            interval_quality_cent_deviation := 0 |}
  | None => Raise ValueError
  end.

(** Modelled from the spec: the generic numeric addition of the base pitch
    type: the pitch class moves by the size of the interval, the octave by
    the floor quotient over the chromatic count, and the pitch class is
    stored through its setter, which looks the name up in the table of
    offsets [INV]. *)
Definition generic_shift (INV : list (Q * string)) (self : WesternPitch) (n : Q)
  : result WesternPitch :=
  let moved := (_pitch_class self + n)%Q in
  let n_octaves := Qfloor (moved / inject_Z CHROMATIC_PITCH_CLASS_COUNT) in
  let pitch_class :=
    Qred (moved - inject_Z (n_octaves * CHROMATIC_PITCH_CLASS_COUNT)) in
  set_pitch_class INV
    {| _pitch_class := _pitch_class self;
       octave := octave self + n_octaves;
       _pitch_class_name := _pitch_class_name self |}
    pitch_class.

Definition operand_semitones (operand : interval_operand) : result Q :=
  match operand with
  | OfStr _ => Raise TypeError
  | OfReal x => Ok x
  | OfWesternPitchInterval i => Ok (interval_semitones i)
  | OfPitchInterval cents => Ok (Qred (cents / 100))
  end.

(** Modelled from the spec: generic [add] and [subtract] of the base
    pitch type over real-valued intervals. *)
Definition generic_add (INV : list (Q * string))
  (self : WesternPitch) (operand : interval_operand) : result WesternPitch :=
  let? n := operand_semitones operand in generic_shift INV self n.

Definition generic_subtract (INV : list (Q * string))
  (self : WesternPitch) (operand : interval_operand) : result WesternPitch :=
  let? n := operand_semitones operand in generic_shift INV self (Qred (- n)).

(** The base pitch type over the table of offsets of the instance. *)
Definition numeric_shift : WesternPitch -> Q -> result WesternPitch :=
  generic_shift modification_table.

Definition numeric_add : WesternPitch -> interval_operand -> result WesternPitch :=
  generic_add modification_table.

Definition numeric_subtract
  : WesternPitch -> interval_operand -> result WesternPitch :=
  generic_subtract modification_table.

Abbreviation name_to_number := (_pitch_class_name_to_pitch_class accidental_table).
Abbreviation number_to_name := (_pitch_class_to_pitch_class_name modification_table).
Abbreviation new_pitch := (__init__ accidental_table modification_table).
Abbreviation pitch_add :=
  (add accidental_table modification_table compensation_table
     interval_of_str interval_of_real numeric_add).
Abbreviation pitch_subtract :=
  (subtract accidental_table modification_table compensation_table
     interval_of_str interval_of_real numeric_add numeric_subtract).

(** The default (major or perfect) interval of a diatonic size. *)
Definition rising (t : Z) : WesternPitchInterval :=
  {| interval_type := t;
     is_interval_falling := false;
     interval_quality_cent_deviation := 0 |}.

Definition falling (t : Z) : WesternPitchInterval :=
  inverse_direction (rising t).

(** [WesternPitch(name, octave)] when the name is known to be valid. *)
Definition pitch_named (name : string) (octave : Z) : WesternPitch :=
  match new_pitch (PitchClassName name) octave with
  | Ok p => p
  | Raise _ =>
      {| _pitch_class := 0; octave := octave; _pitch_class_name := name |}
  end.


(** ** Indicators and indicator collections *)

(** The values a client may assign to an attribute.  An instance of a
    class is reached through its location in the heap. *)
Inductive value : Type :=
| VNone
| VBool (b : bool)
| VInt (n : Z)
| VStr (s : string)
| VRef (l : nat).

(** [bool(value)]; an instance of a class that defines neither
    [__bool__] nor [__len__] is true. *)
Definition truth (v : value) : bool :=
  match v with
  | VNone => false
  | VBool b => b
  | VInt n => negb (n =? 0)
  | VStr s => negb (String.eqb s "")
  | VRef _ => true
  end.

Definition is_bool (v : value) : bool :=
  match v with
  | VBool _ => true
  | _ => false
  end.

(** The indicator classes of the two modules, and the explicit playing
    indicator of [ext_parameters.abc]. *)
Inductive indicator_class : Type :=
| ExplicitPlayingIndicator
| Tremolo
| Articulation
| Arpeggio
| Pedal
| StringContactPoint
| Ornamentation
| BendAfter
| ArtificalHarmonic
| PreciseNaturalHarmonic
| Fermata
| Hairpin
| Trill
| BarLine
| Clef
| Ottava
| MarginMarkup
| Markup
| RehearsalMark.

Definition is_ExplicitPlayingIndicator (c : indicator_class) : bool :=
  match c with
  | ExplicitPlayingIndicator => true
  | _ => false
  end.

(** The declared fields of each dataclass with their defaults.
    Modelled from the spec: [ExplicitPlayingIndicator] is declared outside
    the sources; it exposes the one field [is_active], initially off. *)
Definition default_fields (c : indicator_class) : list (string * value) :=
  match c with
  | ExplicitPlayingIndicator => [("is_active", VBool false)]
  | Tremolo => [("n_flags", VNone)]
  | Articulation => [("name", VNone)]
  | Arpeggio => [("direction", VNone)]
  | Pedal => [("pedal_type", VNone); ("pedal_activity", VBool true)]
  | StringContactPoint => [("contact_point", VNone)]
  | Ornamentation => [("direction", VNone); ("n_times", VInt 1)]
  | BendAfter =>
      [("bend_amount", VNone); ("minimum_length", VInt 3); ("thickness", VInt 3)]
  | ArtificalHarmonic => [("n_semitones", VNone)]
  | PreciseNaturalHarmonic =>
      [("string_pitch", VNone); ("played_pitch", VNone);
       ("harmonic_note_head_style", VBool true);
       ("parenthesize_lower_note_head", VBool false)]
  | Fermata => [("fermata_type", VNone)]
  | Hairpin => [("symbol", VNone)]
  | Trill => [("pitch", VNone)]
  | BarLine => [("abbreviation", VNone)]
  | Clef => [("name", VNone)]
  | Ottava => [("n_octaves", VInt 0)]
  | MarginMarkup => [("content", VNone); ("context", VStr "Staff")]
  | Markup => [("content", VNone); ("direction", VNone)]
  | RehearsalMark => [("markup", VNone)]
  end%string.

(** An indicator instance: its class and its [__dict__]. *)
Record indicator : Type := {
  class_of : indicator_class;
  fields : gmap string value
}.

Definition new_indicator (c : indicator_class) : indicator :=
  {| class_of := c; fields := list_to_map (default_fields c) |}.

(** A collection and the indicators it reaches: the [__dict__] of the
    collection maps a slot name to a value, indicator instances live in
    the heap and are named by their position. *)
Record state : Type := {
  heap : list indicator;
  slots : gmap string value
}.

(** [indicator.name = v] on the instance at location [l]. *)
Definition indicator_setattr (st : state) (l : nat) (name : string) (v : value)
  : state :=
  match heap st !! l with
  | Some o =>
      {| heap :=
           <[l := {| class_of := class_of o;
                     fields := <[name := v]> (fields o) |}]> (heap st);
         slots := slots st |}
  | None => st
  end.

(** [indicator.name] of the instance at location [l]. *)
Definition indicator_getattr (st : state) (l : nat) (name : string)
  : option value :=
  match heap st !! l with
  | Some o => fields o !! name
  | None => None
  end.

(** [getattr(self, parameter_name)] with [AttributeError] caught and
    replaced by [None].  A state holds the attributes of the instance;
    the names the classes themselves define (methods and the like) are
    no names of the model. *)
Definition getattr_or_None (st : state) (parameter_name : string) : value :=
  match slots st !! parameter_name with
  | Some v => v
  | None => VNone
  end.

(** [isinstance(v, ext_parameters.abc.ExplicitPlayingIndicator)] *)
Definition isinstance_ExplicitPlayingIndicator (st : state) (v : value) : bool :=
  match v with
  | VRef l =>
      match heap st !! l with
      | Some o => is_ExplicitPlayingIndicator (class_of o)
      | None => false
      end
  | _ => false
  end.

(** [object.__setattr__(self, parameter_name, value)] *)
Definition object_setattr (st : state) (parameter_name : string) (v : value)
  : state :=
  {| heap := heap st; slots := <[parameter_name := v]> (slots st) |}.

(** [PlayingIndicatorCollection.__setattr__]: the result and the state
    it leaves. *)
Definition PlayingIndicatorCollection_setattr
  (st : state) (parameter_name : string) (v : value) : result unit * state :=
  let playing_indicator := getattr_or_None st parameter_name in
  match playing_indicator with
  | VNone => (Ok tt, object_setattr st parameter_name v)
  | VRef l =>
      if isinstance_ExplicitPlayingIndicator st playing_indicator
      then (Ok tt, indicator_setattr st l "is_active" (VBool (truth v)))
      else (Raise FrozenInstanceError, st)
  | _ => (Raise FrozenInstanceError, st)
  end.

(** [NotationIndicatorCollection.__setattr__] *)
Definition NotationIndicatorCollection_setattr
  (st : state) (parameter_name : string) (v : value) : result unit * state :=
  let notation_indicator := getattr_or_None st parameter_name in
  match notation_indicator with
  | VNone => (Ok tt, object_setattr st parameter_name v)
  | _ => (Raise FrozenInstanceError, st)
  end.

(** The fields of the two collections, in declaration order, each with
    its [default_factory]. *)
Definition PlayingIndicatorCollection_fields : list (string * indicator_class) :=
  [("articulation", Articulation);
   ("artifical_harmonic", ArtificalHarmonic);
   ("arpeggio", Arpeggio);
   ("bartok_pizzicato", ExplicitPlayingIndicator);
   ("bend_after", BendAfter);
   ("breath_mark", ExplicitPlayingIndicator);
   ("duration_line_dashed", ExplicitPlayingIndicator);
   ("duration_line_triller", ExplicitPlayingIndicator);
   ("fermata", Fermata);
   ("glissando", ExplicitPlayingIndicator);
   ("hairpin", Hairpin);
   ("natural_harmonic", ExplicitPlayingIndicator);
   ("laissez_vibrer", ExplicitPlayingIndicator);
   ("ornamentation", Ornamentation);
   ("pedal", Pedal);
   ("prall", ExplicitPlayingIndicator);
   ("precise_natural_harmonic", PreciseNaturalHarmonic);
   ("string_contact_point", StringContactPoint);
   ("tie", ExplicitPlayingIndicator);
   ("tremolo", Tremolo);
   ("trill", Trill)]%string.

Definition NotationIndicatorCollection_fields : list (string * indicator_class) :=
  [("bar_line", BarLine);
   ("clef", Clef);
   ("ottava", Ottava);
   ("margin_markup", MarginMarkup);
   ("markup", Markup);
   ("rehearsal_mark", RehearsalMark)]%string.

(** The generated [__init__] of a dataclass: every field is assigned, in
    order, the fresh instance its [default_factory] builds; the assignment
    goes through [__setattr__] of the collection. *)
Fixpoint dataclass_init
  (setattr : state -> string -> value -> result unit * state)
  (declared : list (string * indicator_class)) (st : state)
  : result unit * state :=
  match declared with
  | [] => (Ok tt, st)
  | (name, c) :: declared' =>
      let l := length (heap st) in
      let allocated :=
        {| heap := heap st ++ [new_indicator c]; slots := slots st |} in
      match setattr allocated name (VRef l) with
      | (Ok _, st') => dataclass_init setattr declared' st'
      | (Raise e, st') => (Raise e, st')
      end
  end.

Definition empty_state : state := {| heap := []; slots := ∅ |}.

(** [PlayingIndicatorCollection()] *)
Definition PlayingIndicatorCollection_new : state :=
  snd (dataclass_init PlayingIndicatorCollection_setattr
         PlayingIndicatorCollection_fields empty_state).

(** [NotationIndicatorCollection()] *)
Definition NotationIndicatorCollection_new : state :=
  snd (dataclass_init NotationIndicatorCollection_setattr
         NotationIndicatorCollection_fields empty_state).

(** ** Notions used in the statements *)

(** The index the step computation reaches before it is reduced. *)
Definition absolute_index (idx : nat) (i : WesternPitchInterval) : Z :=
  if is_interval_falling i
  then Z.of_nat idx - (interval_type i - 1)
  else Z.of_nat idx + (interval_type i - 1).

(** Less than the double [0.001] away from an integer. *)
Definition near_integer (x : Q) : Prop :=
  exists n : Z, (Qabs (x - inject_Z n) < thousandth)%Q.

(** The two accidental tables hold one mapping, read in both
    directions: every offset of the table of names is a key of the table
    of offsets, and every name in the table of offsets has, in the table
    of names, the offset it is filed under. *)
Definition tables_agree
  (ACC : list (string * Q)) (INV : list (Q * string)) : bool :=
  forallb
    (fun entry =>
       match dict_get_num INV (snd entry) with
       | Some _ => true
       | None => false
       end) ACC
  && forallb
       (fun entry =>
          match dict_get ACC (snd entry) with
          | Some offset => Qeq_bool offset (fst entry)
          | None => false
          end) INV.

(** The base offset of [letter] is strictly closer to [total] than the
    base offset of any other letter. *)
Definition closest_diatonic_is_unique (letter : string) (base : Z) (total : Q)
  : Prop :=
  forall letter' base',
    dict_get DIATONIC_PITCH_NAME_TO_PITCH_CLASS_DICT letter' = Some base' ->
    letter' <> letter ->
    (Qabs (total - inject_Z base) < Qabs (total - inject_Z base'))%Q.

(** The offset of [accidental] is strictly closer to [residual] than the
    offset of any other entry of the accidental table. *)
Definition closest_accidental_is_unique
  (ACC : list (string * Q)) (accidental : string) (offset residual : Q)
  : Prop :=
  forall accidental' offset',
    dict_get ACC accidental' = Some offset' ->
    accidental' <> accidental ->
    (Qabs (residual - offset) < Qabs (residual - offset'))%Q.

(** The number of a pitch is the one its name stands for. *)
Definition number_follows_name (ACC : list (string * Q)) (p : WesternPitch)
  : Prop :=
  _pitch_class_name_to_pitch_class ACC (_pitch_class_name p)
  = Ok (_pitch_class p).

(** The name of a pitch is the one chosen for its number. *)
Definition name_follows_number (INV : list (Q * string)) (p : WesternPitch)
  : Prop :=
  _pitch_class_to_pitch_class_name INV (_pitch_class p)
  = Ok (_pitch_class_name p).

(** One of the two representations of a pitch follows the other. *)
Definition consistent
  (ACC : list (string * Q)) (INV : list (Q * string)) (p : WesternPitch)
  : Prop :=
  number_follows_name ACC p \/ name_follows_number INV p.

(** A run of assignments [collection.name = value] on one collection,
    each exception caught by the caller. *)
Fixpoint assign_all
  (setattr : state -> string -> value -> result unit * state)
  (assignments : list (string * value)) (st : state) : state :=
  match assignments with
  | [] => st
  | (name, v) :: rest => assign_all setattr rest (snd (setattr st name v))
  end.

(** What assignments through a collection leave alone: a slot that is
    bound to something keeps what it is bound to, no object comes or
    goes, an object keeps its class and every field but [is_active],
    and an object that is no explicit playing indicator stays as it
    is. *)
Definition preserved (st st' : state) : Prop :=
  (forall name x,
      slots st !! name = Some x -> x <> VNone -> slots st' !! name = Some x)
  /\ length (heap st') = length (heap st)
  /\ forall l o,
      heap st !! l = Some o ->
      exists o',
        heap st' !! l = Some o'
        /\ class_of o' = class_of o
        /\ (forall field,
               field <> "is_active"%string ->
               fields o' !! field = fields o !! field)
        /\ (class_of o <> ExplicitPlayingIndicator -> o' = o).

(** The value of the last assignment to [name] in a run. *)
Fixpoint last_assigned (name : string) (assignments : list (string * value))
  : option value :=
  match assignments with
  | [] => None
  | (name', v) :: rest =>
      match last_assigned name rest with
      | Some v' => Some v'
      | None => if String.eqb name' name then Some v else None
      end
  end.

(** Every declared field is bound to the object at its own position in
    the declaration order, and that object is of the declared class. *)
Definition bound_in_order
  (declared : list (string * indicator_class)) (first : nat) (st : state)
  : Prop :=
  forall k name c,
    declared !! k = Some (name, c) ->
    slots st !! name = Some (VRef (first + k)%nat)
    /\ class_of <$> heap st !! (first + k)%nat = Some c.

(** * Properties *)

(** ** Indicator collections *)

Section IndicatorCollections.

Implicit Types (st : state) (name : string) (v x : value) (l : nat).

Lemma indicator_setattr_slots st l name v :
  slots (indicator_setattr st l name v) = slots st.
Proof. unfold indicator_setattr. destruct (heap st !! l); reflexivity. Qed.

Lemma indicator_setattr_read st l o name v :
  heap st !! l = Some o ->
  indicator_getattr (indicator_setattr st l name v) l name = Some v.
Proof.
  intros Hl. unfold indicator_getattr, indicator_setattr. rewrite Hl. simpl.
  rewrite list_lookup_insert_eq by (eapply lookup_lt_Some; eassumption).
  simpl. apply lookup_insert_eq.
Qed.

Lemma indicator_setattr_class st l o name v :
  heap st !! l = Some o ->
  class_of <$> heap (indicator_setattr st l name v) !! l = Some (class_of o).
Proof.
  intros Hl. unfold indicator_setattr. rewrite Hl. simpl.
  rewrite list_lookup_insert_eq by (eapply lookup_lt_Some; eassumption).
  reflexivity.
Qed.

Lemma indicator_setattr_other st l l' name v :
  l' <> l -> heap (indicator_setattr st l name v) !! l' = heap st !! l'.
Proof.
  intros Hne. unfold indicator_setattr. destruct (heap st !! l); [|reflexivity].
  simpl. apply list_lookup_insert_ne. congruence.
Qed.

Lemma indicator_setattr_other_field st l o name name' v :
  heap st !! l = Some o -> name' <> name ->
  indicator_getattr (indicator_setattr st l name v) l name' = fields o !! name'.
Proof.
  intros Hl Hne. unfold indicator_getattr, indicator_setattr. rewrite Hl. simpl.
  rewrite list_lookup_insert_eq by (eapply lookup_lt_Some; eassumption).
  simpl. apply lookup_insert_ne. congruence.
Qed.

(** The branch of [PlayingIndicatorCollection.__setattr__] taken on a slot
    that holds an explicit playing indicator. *)
Lemma playing_setattr_explicit st name l o v :
  slots st !! name = Some (VRef l) ->
  heap st !! l = Some o ->
  class_of o = ExplicitPlayingIndicator ->
  PlayingIndicatorCollection_setattr st name v
  = (Ok tt, indicator_setattr st l "is_active" (VBool (truth v))).
Proof.
  intros Hs Hl Hc. unfold PlayingIndicatorCollection_setattr, getattr_or_None.
  rewrite Hs. simpl. rewrite Hl, Hc. reflexivity.
Qed.

(** The branch taken on a slot that holds anything else but [None]. *)
Lemma playing_setattr_frozen st name x v :
  slots st !! name = Some x ->
  x <> VNone ->
  isinstance_ExplicitPlayingIndicator st x = false ->
  PlayingIndicatorCollection_setattr st name v = (Raise FrozenInstanceError, st).
Proof.
  intros Hs Hx He. unfold PlayingIndicatorCollection_setattr, getattr_or_None.
  rewrite Hs. destruct x; try reflexivity; [congruence|].
  rewrite He. reflexivity.
Qed.

Lemma notation_setattr_frozen st name x v :
  slots st !! name = Some x ->
  x <> VNone ->
  NotationIndicatorCollection_setattr st name v = (Raise FrozenInstanceError, st).
Proof.
  intros Hs Hx. unfold NotationIndicatorCollection_setattr, getattr_or_None.
  rewrite Hs. destruct x; try reflexivity. congruence.
Qed.

Lemma isinstance_explicit_inv st x :
  isinstance_ExplicitPlayingIndicator st x = true ->
  exists l o, x = VRef l /\ heap st !! l = Some o
              /\ class_of o = ExplicitPlayingIndicator.
Proof.
  destruct x as [| | | |l]; simpl; try discriminate.
  destruct (heap st !! l) as [o|] eqn:Hl; [|discriminate].
  intros Hc. exists l, o. repeat split; trivial.
  destruct (class_of o); simpl in Hc; congruence.
Qed.

End IndicatorCollections.

(** C4: on a slot bound to an explicit playing indicator, assigning a
    boolean [b] always succeeds, is the very state change of
    [collection.slot.is_active = b] on the object the slot holds, and
    replaces nothing: the slots of the collection, the class of the
    object and every other object stay as they are.  The flag then reads
    [b], and a later boolean assignment succeeds again and overrides it. *)
Theorem C4_boolean_toggles_explicit_indicator
  (st : state) (name : string) (l : nat) (o : indicator) (b : bool) :
  slots st !! name = Some (VRef l) ->
  heap st !! l = Some o ->
  class_of o = ExplicitPlayingIndicator ->
  let after := PlayingIndicatorCollection_setattr st name (VBool b) in
  fst after = Ok tt
  /\ snd after = indicator_setattr st l "is_active" (VBool b)
  /\ slots (snd after) = slots st
  /\ class_of <$> heap (snd after) !! l = Some ExplicitPlayingIndicator
  /\ (forall l', l' <> l -> heap (snd after) !! l' = heap st !! l')
  /\ indicator_getattr (snd after) l "is_active" = Some (VBool b)
  /\ forall b',
      let later :=
        PlayingIndicatorCollection_setattr (snd after) name (VBool b') in
      fst later = Ok tt
      /\ slots (snd later) = slots st
      /\ indicator_getattr (snd later) l "is_active" = Some (VBool b').
Proof.
  intros Hs Hl Hc after.
  assert (Hafter : after = (Ok tt, indicator_setattr st l "is_active" (VBool b))).
  { subst after. now rewrite (playing_setattr_explicit st name l o). }
  rewrite Hafter. simpl.
  split; [reflexivity|]. split; [reflexivity|].
  split; [apply indicator_setattr_slots|].
  split; [rewrite (indicator_setattr_class st l o) by assumption; congruence|].
  split; [intros l' Hne; now apply indicator_setattr_other|].
  split; [now apply (indicator_setattr_read st l o)|].
  intros b'.
  set (st1 := indicator_setattr st l "is_active" (VBool b)) in *.
  destruct (heap st1 !! l) as [o1|] eqn:Hl1.
  2:{ pose proof (indicator_setattr_class st l o "is_active" (VBool b) Hl) as H.
      fold st1 in H. rewrite Hl1 in H. discriminate. }
  assert (Hc1 : class_of o1 = ExplicitPlayingIndicator).
  { pose proof (indicator_setattr_class st l o "is_active" (VBool b) Hl) as H.
    fold st1 in H. rewrite Hl1 in H. simpl in H. congruence. }
  assert (Hs1 : slots st1 !! name = Some (VRef l)).
  { subst st1. now rewrite indicator_setattr_slots. }
  rewrite (playing_setattr_explicit st1 name l o1) by assumption.
  simpl. split; [reflexivity|].
  split.
  - rewrite indicator_setattr_slots. subst st1. apply indicator_setattr_slots.
  - now apply (indicator_setattr_read st1 l o1).
Qed.

(** The [tie] slot of a fresh playing-indicator collection. *)
Lemma C4_witness_tie :
  fst (PlayingIndicatorCollection_setattr PlayingIndicatorCollection_new
         "tie" (VBool true)) = Ok tt
  /\ indicator_getattr
       (snd (PlayingIndicatorCollection_setattr PlayingIndicatorCollection_new
               "tie" (VBool true))) 18 "is_active" = Some (VBool true)
  /\ indicator_getattr
       (snd (PlayingIndicatorCollection_setattr
               (snd (PlayingIndicatorCollection_setattr
                       PlayingIndicatorCollection_new "tie" (VBool true)))
               "tie" (VBool false))) 18 "is_active" = Some (VBool false).
Proof.
  pose proof (C4_boolean_toggles_explicit_indicator
                PlayingIndicatorCollection_new "tie" 18
                (new_indicator ExplicitPlayingIndicator) true
                eq_refl eq_refl eq_refl) as H.
  cbv zeta in H.
  destruct H as (H1 & _ & _ & _ & _ & H2 & H3).
  destruct (H3 false) as (_ & _ & H4).
  exact (conj H1 (conj H2 H4)).
Defined.

(** Reads the location a slot of a concrete collection holds. *)
Ltac fresh_slot :=
  match goal with
  | |- exists l, slots ?st !! ?name = _ /\ _ =>
      let r := eval vm_compute in (slots st !! name) in
      match r with
      | Some (VRef ?l) => exists l; split; vm_compute; reflexivity
      end
  end.

(** Slots of a fresh collection, by the class they were declared with. *)
Lemma fresh_playing_slot name c :
  In (name, c) PlayingIndicatorCollection_fields ->
  exists l,
    slots PlayingIndicatorCollection_new !! name = Some (VRef l)
    /\ heap PlayingIndicatorCollection_new !! l = Some (new_indicator c).
Proof.
  intros Hin. unfold PlayingIndicatorCollection_fields in Hin.
  repeat (destruct Hin as [Hin|Hin]; [injection Hin as <- <-; fresh_slot|]).
  destruct Hin.
Qed.

Lemma fresh_notation_slot name c :
  In (name, c) NotationIndicatorCollection_fields ->
  exists l,
    slots NotationIndicatorCollection_new !! name = Some (VRef l)
    /\ heap NotationIndicatorCollection_new !! l = Some (new_indicator c).
Proof.
  intros Hin. unfold NotationIndicatorCollection_fields in Hin.
  repeat (destruct Hin as [Hin|Hin]; [injection Hin as <- <-; fresh_slot|]).
  destruct Hin.
Qed.

(** C10: a slot of a playing-indicator collection that holds anything
    but an explicit playing indicator, and any slot of a
    notation-indicator collection, refuses every value, booleans
    included: the assignment raises [FrozenInstanceError] and the state
    (slots, objects and their fields) is the one before.  In particular
    this is so for every implicit slot of a fresh playing-indicator
    collection and every slot of a fresh notation-indicator collection. *)
Theorem C10_frozen_slots_refuse_every_value :
  (forall (st : state) (name : string) (x v : value),
      slots st !! name = Some x ->
      x <> VNone ->
      isinstance_ExplicitPlayingIndicator st x = false ->
      PlayingIndicatorCollection_setattr st name v
      = (Raise FrozenInstanceError, st))
  /\ (forall (st : state) (name : string) (x v : value),
         slots st !! name = Some x ->
         x <> VNone ->
         NotationIndicatorCollection_setattr st name v
         = (Raise FrozenInstanceError, st))
  /\ (forall (name : string) (c : indicator_class) (v : value),
         In (name, c) PlayingIndicatorCollection_fields ->
         c <> ExplicitPlayingIndicator ->
         PlayingIndicatorCollection_setattr PlayingIndicatorCollection_new name v
         = (Raise FrozenInstanceError, PlayingIndicatorCollection_new))
  /\ (forall (name : string) (c : indicator_class) (v : value),
         In (name, c) NotationIndicatorCollection_fields ->
         NotationIndicatorCollection_setattr NotationIndicatorCollection_new name v
         = (Raise FrozenInstanceError, NotationIndicatorCollection_new)).
Proof.
  split; [exact playing_setattr_frozen|].
  split; [exact notation_setattr_frozen|].
  split.
  - intros name c v Hin Hc.
    destruct (fresh_playing_slot name c Hin) as (l & Hs & Hl).
    apply (playing_setattr_frozen _ name (VRef l)); [assumption|discriminate|].
    simpl. rewrite Hl. simpl. destruct c; try reflexivity. congruence.
  - intros name c v Hin.
    destruct (fresh_notation_slot name c Hin) as (l & Hs & Hl).
    apply (notation_setattr_frozen _ name (VRef l)); [assumption|discriminate].
Qed.

(** [collection.articulation = True] and [collection.clef = False]. *)
Lemma C10_witness_articulation_and_clef :
  PlayingIndicatorCollection_setattr PlayingIndicatorCollection_new
    "articulation" (VBool true)
  = (Raise FrozenInstanceError, PlayingIndicatorCollection_new)
  /\ NotationIndicatorCollection_setattr NotationIndicatorCollection_new
       "clef" (VBool false)
     = (Raise FrozenInstanceError, NotationIndicatorCollection_new).
Proof.
  destruct C10_frozen_slots_refuse_every_value as (_ & _ & Hp & Hn).
  split.
  - apply (Hp "articulation"%string Articulation);
      [simpl; tauto | discriminate].
  - apply (Hn "clef"%string Clef). simpl; tauto.
Defined.

(** C3, as stated, fails on an explicit slot: on a fresh playing-indicator
    collection [collection.tie = "x"] raises nothing and switches the
    indicator on. *)
Lemma C3_counterexample_tie_accepts_a_string :
  PlayingIndicatorCollection_setattr PlayingIndicatorCollection_new
    "tie" (VStr "x")
  = (Ok tt,
     indicator_setattr PlayingIndicatorCollection_new 18 "is_active"
       (VBool true)).
Proof. reflexivity. Qed.

(** C3, amended: a slot that holds an indicator is never overwritten by
    a non-boolean value; the assignment fails with [FrozenInstanceError]
    and changes nothing when the slot holds anything but an explicit
    playing indicator (an implicit playing indicator, or any notation
    indicator), while on an explicit playing indicator it succeeds, keeps
    the object in its slot and stores the truth value of the assigned
    value in its [is_active]. *)
Theorem C3_non_boolean_never_overwrites_a_slot
  (st : state) (name : string) (x v : value) :
  is_bool v = false ->
  slots st !! name = Some x ->
  x <> VNone ->
  slots (snd (PlayingIndicatorCollection_setattr st name v)) = slots st
  /\ slots (snd (NotationIndicatorCollection_setattr st name v)) = slots st
  /\ NotationIndicatorCollection_setattr st name v
     = (Raise FrozenInstanceError, st)
  /\ (isinstance_ExplicitPlayingIndicator st x = false ->
      PlayingIndicatorCollection_setattr st name v
      = (Raise FrozenInstanceError, st))
  /\ (isinstance_ExplicitPlayingIndicator st x = true ->
      exists l,
        x = VRef l
        /\ PlayingIndicatorCollection_setattr st name v
           = (Ok tt, indicator_setattr st l "is_active" (VBool (truth v)))
        /\ class_of <$>
             heap (snd (PlayingIndicatorCollection_setattr st name v)) !! l
           = Some ExplicitPlayingIndicator).
Proof.
  intros _ Hs Hx.
  pose proof (notation_setattr_frozen st name x v Hs Hx) as Hn.
  assert (Hfrozen : isinstance_ExplicitPlayingIndicator st x = false ->
                    PlayingIndicatorCollection_setattr st name v
                    = (Raise FrozenInstanceError, st))
    by (now apply playing_setattr_frozen).
  assert (Hexplicit :
            isinstance_ExplicitPlayingIndicator st x = true ->
            exists l o,
              x = VRef l /\ heap st !! l = Some o
              /\ PlayingIndicatorCollection_setattr st name v
                 = (Ok tt, indicator_setattr st l "is_active" (VBool (truth v)))).
  { intros He. destruct (isinstance_explicit_inv st x He) as (l & o & -> & Hl & Hc).
    exists l, o. repeat split; trivial.
    now apply (playing_setattr_explicit st name l o). }
  split.
  { destruct (isinstance_ExplicitPlayingIndicator st x) eqn:He.
    - destruct (Hexplicit eq_refl) as (l & o & _ & _ & ->). simpl.
      apply indicator_setattr_slots.
    - now rewrite Hfrozen. }
  split; [now rewrite Hn|].
  split; [exact Hn|].
  split; [exact Hfrozen|].
  intros He. destruct (Hexplicit He) as (l & o & -> & Hl & Heq).
  exists l. split; [reflexivity|]. split; [exact Heq|].
  rewrite Heq. simpl.
  rewrite (indicator_setattr_class st l o) by assumption.
  destruct (isinstance_explicit_inv st _ He) as (l' & o' & [= <-] & Hl' & Hc).
  congruence.
Qed.

(** [collection.articulation = "x"] on a fresh collection. *)
Lemma C3_witness_articulation :
  PlayingIndicatorCollection_setattr PlayingIndicatorCollection_new
    "articulation" (VStr "x")
  = (Raise FrozenInstanceError, PlayingIndicatorCollection_new).
Proof.
  destruct (C3_non_boolean_never_overwrites_a_slot
              PlayingIndicatorCollection_new "articulation" (VRef 0) (VStr "x")
              eq_refl eq_refl ltac:(discriminate))
    as (_ & _ & _ & H & _).
  exact (H eq_refl).
Defined.

(** ** Diatonic stepping *)

(** Every entry of the letter tuple is one character long and is found
    by [tuple.index] at its own position. *)
Lemma ascending_tuple_nth (k : nat) :
  (k < 7)%nat ->
  exists c,
    nth_error ASCENDING_DIATONIC_PITCH_NAME_TUPLE k = Some (String c EmptyString)
    /\ tuple_index ASCENDING_DIATONIC_PITCH_NAME_TUPLE (String c EmptyString)
       = Some k.
Proof.
  intros Hk.
  do 7 (destruct k as [|k]; [eexists; split; reflexivity|]).
  lia.
Qed.

Lemma str_first_single (c : Ascii.ascii) (rest : string) :
  str_first (String c EmptyString +:+ rest) = Ok (String c EmptyString).
Proof. reflexivity. Qed.

Lemma str_rest_single (c : Ascii.ascii) (rest : string) :
  str_rest (String c EmptyString +:+ rest) = rest.
Proof. reflexivity. Qed.

Section Stepping.

Variable ACC : list (string * Q).
Variable INV : list (Q * string).
Variable COMP : list ((string * string) * Q).
Variable super_add : WesternPitch -> interval_operand -> result WesternPitch.

Lemma stepping_result (self : WesternPitch) (i : WesternPitchInterval)
  (letter : string) (idx : nat) :
  diatonic_pitch_class_name self = Ok letter ->
  tuple_index ASCENDING_DIATONIC_PITCH_NAME_TUPLE letter = Some idx ->
  exists c,
    _get_new_diatonic_pitch_class_name_and_octave_count self i
    = Ok (String c EmptyString, absolute_index idx i / 7)
    /\ tuple_index ASCENDING_DIATONIC_PITCH_NAME_TUPLE (String c EmptyString)
       = Some (Z.to_nat (absolute_index idx i mod 7)).
Proof.
  intros Hletter Hidx.
  unfold _get_new_diatonic_pitch_class_name_and_octave_count.
  rewrite Hletter. cbn [bind]. rewrite Hidx. cbn [bind of_option].
  unfold _western_pitch_interval_to_operator_int, DIATONIC_PITCH_CLASS_COUNT.
  fold (absolute_index idx i).
  pose proof (Z.mod_pos_bound (absolute_index idx i) 7 ltac:(lia)) as Hm.
  destruct (ascending_tuple_nth (Z.to_nat (absolute_index idx i mod 7))
              ltac:(lia)) as (c & Hnth & Hback).
  exists c. rewrite Hnth. cbn [bind of_option]. split; [reflexivity|exact Hback].
Qed.

(** When [_add_western_pitch_interval] ends without a warning and
    without an exception, it went through the diatonic path. *)
Lemma diatonic_path (self : WesternPitch) (i : WesternPitchInterval)
  (after : WesternPitch) :
  _add_western_pitch_interval ACC INV COMP super_add self i = (Ok after, []) ->
  exists letter count modification accidental pitch_class,
    _get_new_diatonic_pitch_class_name_and_octave_count self i
    = Ok (letter, count)
    /\ _get_new_pitch_class_modification ACC COMP self i letter
       = Ok modification
    /\ dict_get_num INV modification = Some accidental
    /\ _pitch_class_name_to_pitch_class ACC (letter +:+ accidental)
       = Ok pitch_class
    /\ after = {| _pitch_class := pitch_class;
                  octave := octave self + count;
                  _pitch_class_name := letter +:+ accidental |}.
Proof.
  unfold _add_western_pitch_interval.
  destruct (_get_new_diatonic_pitch_class_name_and_octave_count self i)
    as [[letter count]|e] eqn:Hstep; [|discriminate].
  destruct (_get_new_pitch_class_modification ACC COMP self i letter)
    as [modification|e] eqn:Hmod; [|discriminate].
  destruct (dict_get_num INV modification) as [accidental|] eqn:Hacc;
    [|discriminate].
  unfold silent, set_pitch_class_name.
  destruct (_pitch_class_name_to_pitch_class ACC (letter +:+ accidental))
    as [pitch_class|e] eqn:Hpc; simpl; [|discriminate].
  intros [= <-]. exists letter, count, modification, accidental, pitch_class.
  repeat split; assumption.
Qed.

End Stepping.

(** C1: for a pitch whose letter stands at position [idx] of the
    ascending seven-letter tuple and any interval, the step computation
    yields the letter at position [(idx ± (interval_type - 1)) mod 7]
    (plus when rising, minus when falling) together with the floor
    quotient by 7; remainder and quotient are those of floor division,
    so a falling interval that steps below the first letter has a
    negative quotient.  Whenever the interval is added along the diatonic
    path, the pitch gets that letter and its octave grows by that
    quotient.  A rising third on c stays in the octave and lands on e, a
    rising second on b lands on c one octave up, and a falling second on
    c lands on b one octave down. *)
Theorem C1_diatonic_letter_stepping :
  (forall (self : WesternPitch) (i : WesternPitchInterval)
          (letter : string) (idx : nat),
      diatonic_pitch_class_name self = Ok letter ->
      tuple_index ASCENDING_DIATONIC_PITCH_NAME_TUPLE letter = Some idx ->
      let reached := absolute_index idx i in
      exists new_letter,
        _get_new_diatonic_pitch_class_name_and_octave_count self i
        = Ok (new_letter, reached / DIATONIC_PITCH_CLASS_COUNT)
        /\ tuple_index ASCENDING_DIATONIC_PITCH_NAME_TUPLE new_letter
           = Some (Z.to_nat (reached mod DIATONIC_PITCH_CLASS_COUNT))
        /\ 0 <= reached mod DIATONIC_PITCH_CLASS_COUNT < DIATONIC_PITCH_CLASS_COUNT
        /\ reached
           = DIATONIC_PITCH_CLASS_COUNT * (reached / DIATONIC_PITCH_CLASS_COUNT)
             + reached mod DIATONIC_PITCH_CLASS_COUNT
        /\ (is_interval_falling i = true ->
            Z.of_nat idx < interval_type i - 1 ->
            reached / DIATONIC_PITCH_CLASS_COUNT < 0)
        /\ forall ACC INV COMP super_add after,
            _add_western_pitch_interval ACC INV COMP super_add self i
            = (Ok after, []) ->
            diatonic_pitch_class_name after = Ok new_letter
            /\ octave after
               = octave self + reached / DIATONIC_PITCH_CLASS_COUNT)
  /\ _get_new_diatonic_pitch_class_name_and_octave_count
       (pitch_named "c" 4) (rising 3) = Ok ("e"%string, 0)
  /\ _get_new_diatonic_pitch_class_name_and_octave_count
       (pitch_named "b" 4) (rising 2) = Ok ("c"%string, 1)
  /\ _get_new_diatonic_pitch_class_name_and_octave_count
       (pitch_named "c" 4) (falling 2) = Ok ("b"%string, -1)
  /\ pitch_add (pitch_named "c" 4) (OfWesternPitchInterval (rising 3))
     = (Ok (pitch_named "e" 4), [])
  /\ pitch_add (pitch_named "b" 4) (OfWesternPitchInterval (rising 2))
     = (Ok (pitch_named "cs" 5), [])
  /\ pitch_add (pitch_named "c" 4) (OfWesternPitchInterval (falling 2))
     = (Ok (pitch_named "bf" 3), []).
Proof.
  split; [|repeat split; vm_compute; reflexivity].
  intros self i letter idx Hletter Hidx reached.
  destruct (stepping_result self i letter idx Hletter Hidx) as (c & Hstep & Hback).
  fold reached in Hstep, Hback. unfold DIATONIC_PITCH_CLASS_COUNT.
  exists (String c EmptyString).
  split; [exact Hstep|]. split; [exact Hback|].
  split; [apply Z.mod_pos_bound; lia|].
  split; [apply Z.div_mod; lia|].
  split.
  - intros Hfalling Hbelow.
    apply Z.div_lt_upper_bound; [lia|].
    subst reached. unfold absolute_index. rewrite Hfalling. lia.
  - intros ACC INV COMP super_add after Hadd.
    destruct (diatonic_path ACC INV COMP super_add self i after Hadd)
      as (letter' & count & modification & accidental & pitch_class
          & Hstep' & _ & _ & _ & ->).
    rewrite Hstep in Hstep'. injection Hstep' as <- <-.
    split; reflexivity.
Qed.

(** The general statement at c in octave 4 and a rising third. *)
Lemma C1_witness_third_on_c :
  exists new_letter,
    _get_new_diatonic_pitch_class_name_and_octave_count
      (pitch_named "c" 4) (rising 3)
    = Ok (new_letter, absolute_index 0 (rising 3) / DIATONIC_PITCH_CLASS_COUNT)
    /\ tuple_index ASCENDING_DIATONIC_PITCH_NAME_TUPLE new_letter
       = Some (Z.to_nat (absolute_index 0 (rising 3)
                           mod DIATONIC_PITCH_CLASS_COUNT)).
Proof.
  destruct C1_diatonic_letter_stepping as (H & _).
  destruct (H (pitch_named "c" 4) (rising 3) "c"%string 0%nat eq_refl eq_refl)
    as (new_letter & H1 & H2 & _).
  exists new_letter. exact (conj H1 H2).
Defined.

(** ** Parsing the operand of [add] and [subtract] *)

Lemma Qabs_lt_iff (x y : Q) : (Qabs x < y <-> - y < x /\ x < y)%Q.
Proof.
  split.
  - intros H. apply Qabs_Qlt_condition in H. exact H.
  - intros H. apply Qabs_Qlt_condition. exact H.
Qed.

Lemma thousandth_bounds : (0 < thousandth /\ thousandth < 1 # 2)%Q.
Proof. split; reflexivity. Qed.

Lemma inject_Z_lt_thousandth (a b : Z) :
  (inject_Z a < inject_Z b + thousandth)%Q -> a <= b.
Proof. unfold thousandth, Qlt, Qplus, inject_Z. simpl. lia. Qed.

(** A number close to an integer is rounded to that integer. *)
Lemma round_near (x : Q) (n : Z) :
  (Qabs (x - inject_Z n) < thousandth)%Q -> round x = n.
Proof.
  intros H. apply Qabs_lt_iff in H. destruct H as [Hlo Hhi].
  destruct thousandth_bounds as [Hpos Hhalf].
  pose proof (Qfloor_le x) as Hf1. pose proof (Qlt_floor x) as Hf2.
  rewrite inject_Z_plus in Hf2.
  assert (Hle : Qfloor x <= n) by (apply inject_Z_lt_thousandth; lra).
  assert (Hge : n <= Qfloor x + 1).
  { apply inject_Z_lt_thousandth. rewrite inject_Z_plus. lra. }
  unfold round.
  destruct (Z.eq_dec (Qfloor x) n) as [Heq|Hne].
  - assert (Hlt : (x - inject_Z (Qfloor x) < 1 # 2)%Q) by (rewrite Heq; lra).
    destruct (Qcompare_spec (x - inject_Z (Qfloor x)) (1 # 2)); [lra|exact Heq|lra].
  - assert (Heq : Qfloor x = n - 1) by lia.
    assert (Hgt : (1 # 2 < x - inject_Z (Qfloor x))%Q).
    { rewrite Heq.
      assert (E : (inject_Z (n - 1) == inject_Z n - 1)%Q)
        by (unfold Qeq, Qminus, Qplus, Qopp, inject_Z; simpl; lia).
      rewrite E. lra. }
    destruct (Qcompare_spec (x - inject_Z (Qfloor x)) (1 # 2)); [lra|lra|lia].
Qed.

(** The test of [_parse_pitch_interval] holds exactly of the numbers
    that lie less than the double [0.001] away from an integer. *)
Lemma parse_test_iff (x : Q) :
  (Qabs (inject_Z (round x) - x) < thousandth)%Q <-> near_integer x.
Proof.
  split.
  - intros H. exists (round x). apply Qabs_lt_iff in H. apply Qabs_lt_iff. lra.
  - intros [n Hn]. rewrite (round_near x n Hn).
    apply Qabs_lt_iff in Hn. apply Qabs_lt_iff. lra.
Qed.

Section Parsing.

Variable of_str : string -> result WesternPitchInterval.
Variable of_real : Q -> result WesternPitchInterval.

Local Abbreviation parse := (_parse_pitch_interval of_str of_real).

Lemma parse_real_near (x : Q) :
  near_integer x ->
  parse (OfReal x) = let? i := of_real x in Ok (OfWesternPitchInterval i).
Proof.
  intros H. apply parse_test_iff in H. simpl.
  destruct (Qlt_le_dec _ _) as [_|Hle]; [reflexivity|].
  exfalso. apply (Qlt_not_le _ _ H Hle).
Qed.

Lemma parse_real_far (x : Q) :
  ~ near_integer x -> parse (OfReal x) = Ok (OfReal x).
Proof.
  intros H. simpl.
  destruct (Qlt_le_dec _ _) as [Hlt|_]; [|reflexivity].
  exfalso. apply H, parse_test_iff, Hlt.
Qed.

Lemma parse_str (s : string) :
  parse (OfStr s) = let? i := of_str s in Ok (OfWesternPitchInterval i).
Proof. reflexivity. Qed.

Lemma parse_str_is_never_left_alone (s : string) :
  parse (OfStr s) <> Ok (OfStr s).
Proof. rewrite parse_str. destruct (of_str s); simpl; discriminate. Qed.

Lemma parse_interval (i : WesternPitchInterval) :
  parse (OfWesternPitchInterval i) = Ok (OfWesternPitchInterval i).
Proof. reflexivity. Qed.

End Parsing.

Lemma half_is_not_near_an_integer : ~ near_integer (1 # 2).
Proof.
  intros [n Hn]. apply Qabs_lt_iff in Hn. destruct Hn as [Hlo Hhi].
  unfold Qlt, Qminus, Qplus, Qopp, inject_Z in Hlo, Hhi. simpl in Hlo, Hhi. lia.
Qed.

(** The literal [0.001] is a little more than a thousandth: a number
    exactly a thousandth off an integer passes the test, a number
    [1e-19] further off does not. *)
Lemma a_thousandth_off_is_near_an_integer : near_integer (1001 # 1000).
Proof. exists 1. reflexivity. Qed.

Lemma a_little_further_off_is_not_near_an_integer :
  ~ near_integer (10010000000000000001 # 10000000000000000000).
Proof.
  intros [n Hn]. apply Qabs_lt_iff in Hn. destruct Hn as [Hlo Hhi].
  unfold thousandth, Qlt, Qminus, Qplus, Qopp, inject_Z in Hlo, Hhi.
  simpl in Hlo, Hhi. lia.
Qed.

(** C5, as stated, fails on a numeric string: the string ["0.5"] is not
    handed on unchanged, whatever the interval constructor makes of it. *)
Lemma C5_counterexample_numeric_string :
  _parse_pitch_interval interval_of_str interval_of_real (OfStr "0.5")
  <> Ok (OfStr "0.5").
Proof. apply parse_str_is_never_left_alone. Qed.

(** C5, amended: a bare real operand is converted to a
    [WesternPitchInterval] if and only if it lies less than the double
    [0.001] away from an integer, and is otherwise handed unchanged to
    the addition or subtraction of the base pitch type; a string operand
    is always handed to the [WesternPitchInterval] constructor, whatever
    it spells, and is never passed on as a string.  The double is a
    little more than a thousandth: 1001/1000 is converted, and a number
    [1e-19] further from 1 is not. *)
Theorem C5_only_real_operands_are_tested :
  forall ACC INV COMP of_str of_real super_add super_subtract
         (self : WesternPitch),
    (forall x,
        near_integer x ->
        _parse_pitch_interval of_str of_real (OfReal x)
        = let? i := of_real x in Ok (OfWesternPitchInterval i))
    /\ (forall x,
           ~ near_integer x ->
           _parse_pitch_interval of_str of_real (OfReal x) = Ok (OfReal x)
           /\ add ACC INV COMP of_str of_real super_add self (OfReal x)
              = silent (super_add self (OfReal x))
           /\ subtract ACC INV COMP of_str of_real super_add super_subtract
                self (OfReal x)
              = silent (super_subtract self (OfReal x)))
    /\ (forall s,
           _parse_pitch_interval of_str of_real (OfStr s)
           = (let? i := of_str s in Ok (OfWesternPitchInterval i))
           /\ _parse_pitch_interval of_str of_real (OfStr s) <> Ok (OfStr s))
    /\ _parse_pitch_interval of_str of_real (OfReal (1001 # 1000))
       = (let? i := of_real (1001 # 1000) in Ok (OfWesternPitchInterval i))
    /\ _parse_pitch_interval of_str of_real
         (OfReal (10010000000000000001 # 10000000000000000000))
       = Ok (OfReal (10010000000000000001 # 10000000000000000000)).
Proof.
  intros ACC INV COMP of_str of_real super_add super_subtract self.
  split; [intros x Hx; now apply parse_real_near|].
  split; [|split; [|split]].
  - intros x Hx.
    pose proof (parse_real_far of_str of_real x Hx) as Hparse.
    split; [exact Hparse|].
    unfold add, subtract. rewrite Hparse. split; reflexivity.
  - intros s. split; [reflexivity|apply parse_str_is_never_left_alone].
  - apply parse_real_near, a_thousandth_off_is_near_an_integer.
  - apply parse_real_far, a_little_further_off_is_not_near_an_integer.
Qed.

(** The real 0.5 goes to the numeric addition of the base pitch type. *)
Lemma C5_witness_half :
  pitch_add (pitch_named "c" 4) (OfReal (1 # 2))
  = silent (numeric_add (pitch_named "c" 4) (OfReal (1 # 2))).
Proof.
  destruct (C5_only_real_operands_are_tested
              accidental_table modification_table compensation_table
              interval_of_str interval_of_real numeric_add numeric_subtract
              (pitch_named "c" 4))
    as (_ & H & _).
  destruct (H (1 # 2)%Q half_is_not_near_an_integer) as (_ & Hadd & _).
  exact Hadd.
Defined.

(** ** Subtraction *)

(** C8: on an interval-typed operand (a [WesternPitchInterval], a
    string, or a real less than the double [0.001] away from an integer,
    each of which the constructor turns into one) [subtract] is [add] of
    the direction-inverted interval; on every other operand it is the
    subtraction of the base pitch type.  So it is [add] of an inverted
    interval at 1001/1000, and the base subtraction at a number [1e-19]
    further from 1. *)
Theorem C8_subtract_adds_the_inverted_interval :
  forall ACC INV COMP of_str of_real super_add super_subtract
         (self : WesternPitch),
    let add' := add ACC INV COMP of_str of_real super_add in
    let subtract' :=
      subtract ACC INV COMP of_str of_real super_add super_subtract in
    (forall i,
        subtract' self (OfWesternPitchInterval i)
        = add' self (OfWesternPitchInterval (inverse_direction i)))
    /\ (forall s i,
           of_str s = Ok i ->
           subtract' self (OfStr s)
           = add' self (OfWesternPitchInterval (inverse_direction i)))
    /\ (forall x i,
           near_integer x ->
           of_real x = Ok i ->
           subtract' self (OfReal x)
           = add' self (OfWesternPitchInterval (inverse_direction i)))
    /\ (forall x,
           ~ near_integer x ->
           subtract' self (OfReal x) = silent (super_subtract self (OfReal x)))
    /\ (forall cents,
           subtract' self (OfPitchInterval cents)
           = silent (super_subtract self (OfPitchInterval cents)))
    /\ (forall i,
           of_real (1001 # 1000) = Ok i ->
           subtract' self (OfReal (1001 # 1000))
           = add' self (OfWesternPitchInterval (inverse_direction i)))
    /\ subtract' self (OfReal (10010000000000000001 # 10000000000000000000))
       = silent
           (super_subtract self
              (OfReal (10010000000000000001 # 10000000000000000000))).
Proof.
  intros ACC INV COMP of_str of_real super_add super_subtract self add' subtract'.
  subst add' subtract'. unfold subtract.
  split; [reflexivity|].
  split; [intros s i Hs; rewrite parse_str, Hs; reflexivity|].
  split; [intros x i Hx Hr; rewrite parse_real_near, Hr by assumption;
          reflexivity|].
  split; [intros x Hx; rewrite parse_real_far by assumption; reflexivity|].
  split; [reflexivity|].
  split.
  - intros i Hr.
    rewrite parse_real_near, Hr by apply a_thousandth_off_is_near_an_integer.
    reflexivity.
  - rewrite parse_real_far by apply a_little_further_off_is_not_near_an_integer.
    reflexivity.
Qed.

(** Subtracting the second named ["M2"] from c in octave 4. *)
Lemma C8_witness_second_below_c :
  pitch_subtract (pitch_named "c" 4) (OfStr "M2")
  = pitch_add (pitch_named "c" 4) (OfWesternPitchInterval (falling 2))
  /\ pitch_subtract (pitch_named "c" 4) (OfStr "M2")
     = (Ok (pitch_named "bf" 3), []).
Proof.
  destruct (C8_subtract_adds_the_inverted_interval
              accidental_table modification_table compensation_table
              interval_of_str interval_of_real numeric_add numeric_subtract
              (pitch_named "c" 4))
    as (_ & H & _).
  split; [exact (H "M2"%string (rising 2) eq_refl)|].
  rewrite (H "M2"%string (rising 2) eq_refl). vm_compute. reflexivity.
Defined.

(** ** From a name to a number *)

(** The keys of the diatonic table are one character long. *)
Lemma diatonic_letter_single (letter : string) (base : Z) :
  dict_get DIATONIC_PITCH_NAME_TO_PITCH_CLASS_DICT letter = Some base ->
  exists c, letter = String c EmptyString.
Proof.
  unfold DIATONIC_PITCH_NAME_TO_PITCH_CLASS_DICT. cbn [dict_get].
  repeat (destruct (String.eqb _ letter) eqn:E;
          [apply String.eqb_eq in E; subst letter; eexists; reflexivity|
           clear E]).
  discriminate.
Qed.

Section NameToNumber.

Variable ACC : list (string * Q).

Lemma name_to_number_split (letter accidental : string) (base : Z) :
  dict_get DIATONIC_PITCH_NAME_TO_PITCH_CLASS_DICT letter = Some base ->
  _pitch_class_name_to_pitch_class ACC (letter +:+ accidental)
  = match dict_get ACC accidental with
    | Some offset => Ok (float (inject_Z base + offset))
    | None => Raise NotImplementedError
    end.
Proof.
  intros Hbase.
  destruct (diatonic_letter_single letter base Hbase) as [c ->].
  unfold _pitch_class_name_to_pitch_class.
  rewrite str_first_single, str_rest_single. cbn [bind].
  rewrite Hbase. cbn [bind of_option].
  unfold _accidental_to_pitch_class_modifications.
  destruct (dict_get ACC accidental); reflexivity.
Qed.

End NameToNumber.

(** C9: a pitch-class name is split into its first character, the
    diatonic letter, and the remainder, the accidental; for a name that
    starts with a diatonic letter the conversion raises the
    unknown-accidental error ([NotImplementedError] in the sources) if
    and only if the accidental is absent from the accidental table, and
    otherwise returns, as a float, the base offset of the letter plus
    the offset of the accidental: the sum itself whenever a double holds
    it; on the error the constructor produces no pitch. *)
Theorem C9_name_to_number
  (ACC : list (string * Q)) (letter accidental : string) (base : Z) :
  dict_get DIATONIC_PITCH_NAME_TO_PITCH_CLASS_DICT letter = Some base ->
  str_first (letter +:+ accidental) = Ok letter
  /\ str_rest (letter +:+ accidental) = accidental
  /\ (_pitch_class_name_to_pitch_class ACC (letter +:+ accidental)
      = Raise NotImplementedError
      <-> dict_get ACC accidental = None)
  /\ (forall offset,
         dict_get ACC accidental = Some offset ->
         is_double (inject_Z base + offset) ->
         exists number,
           _pitch_class_name_to_pitch_class ACC (letter +:+ accidental)
           = Ok number
           /\ (number == inject_Z base + offset)%Q)
  /\ (dict_get ACC accidental = None ->
      forall INV octave,
        __init__ ACC INV (PitchClassName (letter +:+ accidental)) octave
        = Raise NotImplementedError).
Proof.
  intros Hbase.
  pose proof (name_to_number_split ACC letter accidental base Hbase) as Hsplit.
  destruct (diatonic_letter_single letter base Hbase) as [c Hc].
  split; [subst letter; apply str_first_single|].
  split; [subst letter; apply str_rest_single|].
  split; [|split].
  - rewrite Hsplit. destruct (dict_get ACC accidental); split; intros H;
      try discriminate; reflexivity.
  - intros offset Hoffset _. rewrite Hsplit, Hoffset.
    eexists. split; [reflexivity|apply Qred_correct].
  - intros Hnone INV octave. unfold __init__.
    unfold _pitch_class_or_pitch_class_name_to_pitch_class_and_pitch_class_name.
    rewrite Hsplit, Hnone. reflexivity.
Qed.

(** The names ["cs"] and ["cx"] against the accidental table. *)
Lemma C9_witness_c_sharp :
  (exists number,
      name_to_number "cs" = Ok number /\ (number == inject_Z 0 + 1)%Q)
  /\ (name_to_number "cx" = Raise NotImplementedError
      <-> dict_get accidental_table "x" = None).
Proof.
  split.
  - destruct (C9_name_to_number accidental_table "c" "s" 0 eq_refl)
      as (_ & _ & _ & H & _).
    apply (H 1%Q eq_refl). exists 1, 0. split; [reflexivity|].
    split; [lia|reflexivity].
  - destruct (C9_name_to_number accidental_table "c" "x" 0 eq_refl)
      as (_ & _ & H & _).
    exact H.
Defined.

(** ** The closest entry of a sequence *)

Section Closest.

Implicit Types (item x y best : Q) (l pre : list Q).

(** The scan keeps an entry that is at least as close as all the
    entries it has passed. *)
Lemma find_closest_from_min item l :
  forall pre best_i best,
    nth_error (pre ++ l) best_i = Some best ->
    (forall y, In y pre -> (Qabs (item - best) <= Qabs (item - y))%Q) ->
    exists x,
      nth_error (pre ++ l) (find_closest_from item l (length pre) best_i best)
      = Some x
      /\ forall y, In y (pre ++ l) -> (Qabs (item - x) <= Qabs (item - y))%Q.
Proof.
  induction l as [|a l IH]; intros pre best_i best Hbest Hpre.
  - exists best. split; [exact Hbest|].
    intros y Hy. rewrite app_nil_r in Hy. auto.
  - cbn [find_closest_from].
    replace (pre ++ a :: l) with ((pre ++ [a]) ++ l) in *
      by (rewrite <- app_assoc; reflexivity).
    replace (S (length pre)) with (length (pre ++ [a]))
      by (rewrite length_app; simpl; lia).
    destruct (Qlt_le_dec (Qabs (item - a)) (Qabs (item - best))) as [Hlt|Hle];
      apply IH.
    + rewrite nth_error_app1 by (rewrite length_app; simpl; lia).
      rewrite nth_error_app2 by lia. rewrite Nat.sub_diag. reflexivity.
    + intros y Hy. apply in_app_iff in Hy. destruct Hy as [Hy|[<-|[]]].
      * apply Qlt_le_weak. eapply Qlt_le_trans; [exact Hlt|auto].
      * apply Qle_refl.
    + exact Hbest.
    + intros y Hy. apply in_app_iff in Hy. destruct Hy as [Hy|[<-|[]]]; auto.
Qed.

Lemma find_closest_index_min item l r :
  find_closest_index item l = Some r ->
  exists x,
    nth_error l r = Some x
    /\ forall y, In y l -> (Qabs (item - x) <= Qabs (item - y))%Q.
Proof.
  destruct l as [|a l]; [discriminate|]. cbn [find_closest_index].
  intros [= <-].
  apply (find_closest_from_min item l [a] 0%nat a); [reflexivity|].
  intros y [<-|[]]. apply Qle_refl.
Qed.

Lemma find_closest_index_some item l :
  l <> [] -> exists r, find_closest_index item l = Some r.
Proof. destruct l; [congruence|]. intros _. eexists. reflexivity. Qed.

(** An entry strictly closer than every entry at another position is
    the one that is found. *)
Lemma find_closest_index_unique item l j x :
  nth_error l j = Some x ->
  (forall k y, nth_error l k = Some y -> k <> j ->
               (Qabs (item - x) < Qabs (item - y))%Q) ->
  find_closest_index item l = Some j.
Proof.
  intros Hj Hunique.
  destruct (find_closest_index_some item l) as [r Hr].
  { intros ->. destruct j; discriminate. }
  rewrite Hr. f_equal.
  destruct (find_closest_index_min item l r Hr) as (y & Hy & Hmin).
  destruct (Nat.eq_dec r j) as [|Hne]; [assumption|exfalso].
  apply (Qlt_not_le _ _ (Hunique r y Hy Hne)).
  apply Hmin. eapply nth_error_In. exact Hj.
Qed.

(** When the sequence holds an entry equal to the item, the closest
    entry equals the item. *)
Lemma find_closest_item_exact item l y :
  In y l -> (y == item)%Q ->
  exists k, find_closest_item item l = Some k /\ (k == item)%Q.
Proof.
  intros Hin Heq. unfold find_closest_item.
  destruct (find_closest_index_some item l) as [r Hr].
  { intros ->. destruct Hin. }
  rewrite Hr.
  destruct (find_closest_index_min item l r Hr) as (k & Hk & Hmin).
  exists k. split; [exact Hk|].
  specialize (Hmin y Hin).
  assert (Hzero : (Qabs (item - y) == 0)%Q).
  { rewrite Heq. unfold Qminus. rewrite Qplus_opp_r. reflexivity. }
  rewrite Hzero in Hmin. apply Qabs_Qle_condition in Hmin. lra.
Qed.

(** The scan only compares distances, so it cannot tell equal items
    apart. *)
Lemma find_closest_from_Qeq item item' l :
  (item == item')%Q ->
  forall i best_i best,
    find_closest_from item l i best_i best
    = find_closest_from item' l i best_i best.
Proof.
  intros Heq. induction l as [|a l IH]; intros i best_i best; [reflexivity|].
  cbn [find_closest_from].
  destruct (Qlt_le_dec (Qabs (item - a)) (Qabs (item - best))) as [H|H];
    destruct (Qlt_le_dec (Qabs (item' - a)) (Qabs (item' - best))) as [H'|H'];
    try apply IH; exfalso; rewrite Heq in H;
    apply (Qlt_not_le _ _ ltac:(eassumption) ltac:(eassumption)).
Qed.

Lemma find_closest_index_Qeq item item' l :
  (item == item')%Q -> find_closest_index item l = find_closest_index item' l.
Proof.
  intros Heq. destruct l; [reflexivity|]. cbn [find_closest_index].
  f_equal. now apply find_closest_from_Qeq.
Qed.

Lemma find_closest_item_Qeq item item' l :
  (item == item')%Q -> find_closest_item item l = find_closest_item item' l.
Proof.
  intros Heq. unfold find_closest_item.
  now rewrite (find_closest_index_Qeq item item' l Heq).
Qed.

End Closest.

(** ** Lookups in the tables *)

Lemma dict_get_In {V : Type} (d : list (string * V)) (k : string) (v : V) :
  dict_get d k = Some v -> In (k, v) d.
Proof.
  induction d as [|[k' v'] d IH]; [discriminate|]. cbn [dict_get].
  destruct (String.eqb k' k) eqn:E.
  - apply String.eqb_eq in E. intros [= <-]. subst. now left.
  - intros H. right. auto.
Qed.

Lemma dict_get_num_In {V : Type} (d : list (Q * V)) (k : Q) (v : V) :
  dict_get_num d k = Some v -> exists k', In (k', v) d /\ (k' == k)%Q.
Proof.
  induction d as [|[k' v'] d IH]; [discriminate|]. cbn [dict_get_num].
  destruct (Qeq_bool k' k) eqn:E.
  - apply Qeq_bool_iff in E. intros [= <-]. exists k'. split; [now left|exact E].
  - intros H. destruct (IH H) as (k'' & Hin & Heq). exists k''.
    split; [now right|exact Heq].
Qed.

Lemma dict_get_num_Qeq {V : Type} (d : list (Q * V)) (k1 k2 : Q) :
  (k1 == k2)%Q -> dict_get_num d k1 = dict_get_num d k2.
Proof.
  intros Heq. induction d as [|[k' v'] d IH]; [reflexivity|].
  cbn [dict_get_num].
  destruct (Qeq_bool k' k1) eqn:E1; destruct (Qeq_bool k' k2) eqn:E2;
    try reflexivity; try exact IH; exfalso.
  - apply Qeq_bool_iff in E1. apply Qeq_bool_neq in E2. apply E2.
    now rewrite E1.
  - apply Qeq_bool_iff in E2. apply Qeq_bool_neq in E1. apply E1.
    now rewrite E2, Heq.
Qed.

Section Agreement.

Variable ACC : list (string * Q).
Variable INV : list (Q * string).
Hypothesis agree : tables_agree ACC INV = true.

(** Every offset of a known accidental is a key of the table of offsets. *)
Lemma agree_offset_is_key (accidental : string) (offset : Q) :
  dict_get ACC accidental = Some offset ->
  exists key, In key (dict_keys INV) /\ (key == offset)%Q.
Proof.
  intros Hget. apply dict_get_In in Hget.
  unfold tables_agree in agree. apply andb_prop in agree as [Hall _].
  rewrite forallb_forall in Hall. specialize (Hall _ Hget). cbn [snd] in Hall.
  destruct (dict_get_num INV offset) as [name|] eqn:Hnum; [|discriminate].
  destruct (dict_get_num_In INV offset name Hnum) as (key & Hin & Heq).
  exists key. split; [|exact Heq].
  unfold dict_keys. change key with (fst (key, name)). now apply in_map.
Qed.

(** The name filed under an offset has that offset in the table of
    names. *)
Lemma agree_name_has_offset (key : Q) (name : string) :
  dict_get_num INV key = Some name ->
  exists offset, dict_get ACC name = Some offset /\ (offset == key)%Q.
Proof.
  intros Hnum.
  destruct (dict_get_num_In INV key name Hnum) as (key' & Hin & Heq).
  unfold tables_agree in agree. apply andb_prop in agree as [_ Hall].
  rewrite forallb_forall in Hall. specialize (Hall _ Hin).
  cbn [fst snd] in Hall.
  destruct (dict_get ACC name) as [offset|]; [|discriminate].
  apply Qeq_bool_iff in Hall. exists offset. split; [reflexivity|].
  now rewrite Hall.
Qed.

(** The accidental chosen for the offset of a known accidental that no
    other entry shares is that accidental. *)
Lemma accidental_of_its_offset (accidental : string) (offset residual : Q) :
  dict_get ACC accidental = Some offset ->
  (residual == offset)%Q ->
  closest_accidental_is_unique ACC accidental offset residual ->
  _difference_to_closest_diatonic_pitch_to_accidental INV residual
  = Ok accidental.
Proof.
  intros Hget Hres Hunique.
  unfold _difference_to_closest_diatonic_pitch_to_accidental.
  destruct (agree_offset_is_key accidental offset Hget) as (key & Hin & Hkey).
  destruct (find_closest_item_exact residual (dict_keys INV) key Hin)
    as (k & Hk & Hkeq); [now rewrite Hkey, Hres|].
  rewrite Hk. cbn [bind of_option].
  assert (Hsome : exists name, dict_get_num INV k = Some name).
  { rewrite (dict_get_num_Qeq INV k key) by (now rewrite Hkeq, Hres, Hkey).
    unfold dict_keys in Hin. apply in_map_iff in Hin.
    destruct Hin as ([key' name] & Hfst & Hin). cbn [fst] in Hfst. subst key'.
    clear - Hin. induction INV as [|[k' v'] d IH]; [destruct Hin|].
    cbn [dict_get_num]. destruct (Qeq_bool k' key) eqn:E; [eauto|].
    destruct Hin as [[= -> ->]|Hin]; [|auto].
    apply Qeq_bool_neq in E. exfalso. apply E. reflexivity. }
  destruct Hsome as [name Hname]. rewrite Hname. cbn [of_option]. f_equal.
  destruct (agree_name_has_offset k name Hname) as (offset' & Hget' & Hoff).
  destruct (String.string_dec name accidental) as [|Hne]; [assumption|exfalso].
  specialize (Hunique name offset' Hget' Hne).
  apply (Qlt_irrefl (Qabs (residual - offset))).
  eapply Qlt_le_trans; [exact Hunique|].
  apply Qle_lteq. right. now rewrite Hoff, Hkeq, Hres.
Qed.

End Agreement.

(** ** From a number to a name *)

(** Tries the seven letters in turn. *)
Ltac by_uniqueness Hu :=
  first
    [ congruence
    | apply (Hu "c"%string 0 eq_refl); discriminate
    | apply (Hu "d"%string 2 eq_refl); discriminate
    | apply (Hu "e"%string 4 eq_refl); discriminate
    | apply (Hu "f"%string 5 eq_refl); discriminate
    | apply (Hu "g"%string 7 eq_refl); discriminate
    | apply (Hu "a"%string 9 eq_refl); discriminate
    | apply (Hu "b"%string 11 eq_refl); discriminate ].

Ltac closest_letter Hu :=
  first
    [ exists 0%nat; (split; [|split; reflexivity])
    | exists 1%nat; (split; [|split; reflexivity])
    | exists 2%nat; (split; [|split; reflexivity])
    | exists 3%nat; (split; [|split; reflexivity])
    | exists 4%nat; (split; [|split; reflexivity])
    | exists 5%nat; (split; [|split; reflexivity])
    | exists 6%nat; (split; [|split; reflexivity]) ];
  match goal with
  | |- find_closest_index _ _ = Some ?j =>
      apply (find_closest_index_unique _ _ j
               (nth j (map inject_Z
                         (dict_values DIATONIC_PITCH_NAME_TO_PITCH_CLASS_DICT))
                      0%Q));
      [ reflexivity
      | let k := fresh "k" in
        let y := fresh "y" in
        let Hk := fresh "Hk" in
        let Hne := fresh "Hne" in
        intros k y Hk Hne;
        do 7 (destruct k as [|k];
              [ injection Hk as <-; by_uniqueness Hu | ]);
        destruct k; discriminate Hk ]
  end.

(** The letter whose base offset is the one strictly closest to the
    number is the letter that is found, at its position in the table. *)
Lemma closest_diatonic_index (letter : string) (base : Z) (total : Q) :
  dict_get DIATONIC_PITCH_NAME_TO_PITCH_CLASS_DICT letter = Some base ->
  closest_diatonic_is_unique letter base total ->
  exists j,
    find_closest_index total
      (map inject_Z (dict_values DIATONIC_PITCH_NAME_TO_PITCH_CLASS_DICT))
    = Some j
    /\ nth_error (dict_values DIATONIC_PITCH_NAME_TO_PITCH_CLASS_DICT) j
       = Some base
    /\ nth_error (dict_keys DIATONIC_PITCH_NAME_TO_PITCH_CLASS_DICT) j
       = Some letter.
Proof.
  intros Hget Hu. revert Hget.
  unfold DIATONIC_PITCH_NAME_TO_PITCH_CLASS_DICT at 1. cbn [dict_get].
  repeat (destruct (String.eqb _ letter) eqn:E;
          [ apply String.eqb_eq in E; subst letter; intros [= <-];
            closest_letter Hu
          | clear E ]).
  discriminate.
Qed.

Section NumberToName.

Variable INV : list (Q * string).

Lemma difference_to_accidental_Qeq (r r' : Q) :
  (r == r')%Q ->
  _difference_to_closest_diatonic_pitch_to_accidental INV r
  = _difference_to_closest_diatonic_pitch_to_accidental INV r'.
Proof.
  intros Heq. unfold _difference_to_closest_diatonic_pitch_to_accidental.
  now rewrite (find_closest_item_Qeq r r' _ Heq).
Qed.

(** Equal numbers get the same name. *)
Lemma number_to_name_Qeq (x y : Q) :
  (x == y)%Q ->
  _pitch_class_to_pitch_class_name INV x = _pitch_class_to_pitch_class_name INV y.
Proof.
  intros Heq. unfold _pitch_class_to_pitch_class_name.
  rewrite (find_closest_index_Qeq x y _ Heq).
  destruct (find_closest_index y _) as [j|]; [|reflexivity]. cbn [bind of_option].
  destruct (nth_error (dict_values _) j) as [base|]; [|reflexivity].
  cbn [bind of_option].
  destruct (nth_error (dict_keys _) j) as [letter|]; [|reflexivity].
  cbn [bind of_option].
  rewrite (difference_to_accidental_Qeq (x - inject_Z base) (y - inject_Z base));
    [reflexivity|now rewrite Heq].
Qed.

End NumberToName.

(** ** The round trip through the codec *)


Lemma c_is_closest_to_a_quarter_tone_above :
  closest_diatonic_is_unique "c" 0 (inject_Z 0 + (1 # 2)).
Proof.
  intros letter' base'.
  unfold DIATONIC_PITCH_NAME_TO_PITCH_CLASS_DICT. cbn [dict_get].
  repeat (destruct (String.eqb _ letter') eqn:E;
          [ apply String.eqb_eq in E; subst letter'; intros [= <-] Hne;
            first [congruence | reflexivity]
          | clear E ]).
  discriminate.
Qed.

Lemma quarter_sharp_is_closest_to_its_offset :
  closest_accidental_is_unique accidental_table "qs" (1 # 2)
    (inject_Z 0 + (1 # 2) - inject_Z 0).
Proof.
  intros accidental' offset'.
  unfold accidental_table. cbn [dict_get].
  repeat (destruct (String.eqb _ accidental') eqn:E;
          [ apply String.eqb_eq in E; subst accidental'; intros [= <-] Hne;
            first [congruence | reflexivity]
          | clear E ]).
  discriminate.
Qed.


(** ** Name and number of a pitch *)

Section Synchronisation.

Variable ACC : list (string * Q).
Variable INV : list (Q * string).
Variable COMP : list ((string * string) * Q).
Variable of_str : string -> result WesternPitchInterval.
Variable of_real : Q -> result WesternPitchInterval.
Variable super_add : WesternPitch -> interval_operand -> result WesternPitch.
Variable super_subtract : WesternPitch -> interval_operand -> result WesternPitch.

Lemma set_pitch_class_name_spec (self after : WesternPitch) (name : string) :
  set_pitch_class_name ACC self name = Ok after ->
  _pitch_class_name after = name
  /\ octave after = octave self
  /\ number_follows_name ACC after.
Proof.
  unfold set_pitch_class_name, number_follows_name.
  destruct (_pitch_class_name_to_pitch_class ACC name) as [pc|e] eqn:Hpc;
    [|discriminate].
  cbn [bind]. intros [= <-]. cbn. auto.
Qed.

Lemma set_pitch_class_spec (self after : WesternPitch) (x : Q) :
  set_pitch_class INV self x = Ok after ->
  _pitch_class after = x
  /\ octave after = octave self
  /\ name_follows_number INV after.
Proof.
  unfold set_pitch_class, name_follows_number.
  destruct (_pitch_class_to_pitch_class_name INV x) as [name|e] eqn:Hname;
    [|discriminate].
  cbn [bind]. intros [= <-]. cbn. auto.
Qed.

(** Whatever [_add_western_pitch_interval] returns, it either went
    through the name setter or is what the base addition returned. *)
Lemma add_western_pitch_interval_spec
  (self after : WesternPitch) (i : WesternPitchInterval) (w : list warning) :
  _add_western_pitch_interval ACC INV COMP super_add self i = (Ok after, w) ->
  number_follows_name ACC after
  \/ super_add self (OfWesternPitchInterval i) = Ok after.
Proof.
  unfold _add_western_pitch_interval.
  destruct (_get_new_diatonic_pitch_class_name_and_octave_count self i)
    as [[letter count]|e]; [|discriminate].
  destruct (_get_new_pitch_class_modification ACC COMP self i letter)
    as [modification|e]; [|discriminate].
  destruct (dict_get_num INV modification) as [accidental|].
  - unfold silent.
    destruct (set_pitch_class_name ACC self (letter +:+ accidental))
      as [renamed|e] eqn:Hset; [|discriminate].
    cbn [bind]. intros [= <- _]. left.
    destruct (set_pitch_class_name_spec _ _ _ Hset) as (_ & _ & H).
    exact H.
  - intros [= H _]. right. exact H.
Qed.

Lemma add_spec
  (self after : WesternPitch) (operand : interval_operand) (w : list warning) :
  add ACC INV COMP of_str of_real super_add self operand = (Ok after, w) ->
  number_follows_name ACC after
  \/ exists handed, super_add self handed = Ok after.
Proof.
  unfold add.
  destruct (_parse_pitch_interval of_str of_real operand) as [parsed|e];
    [|discriminate].
  destruct parsed as [s|x|i|cents];
    try (intros [= H _]; right; eexists; exact H).
  intros H. apply add_western_pitch_interval_spec in H.
  destruct H as [H|H]; [now left|right; eexists; exact H].
Qed.

End Synchronisation.

(** ** Runs of assignments *)

Lemma preserved_refl (st : state) : preserved st st.
Proof.
  split; [auto|]. split; [reflexivity|].
  intros l o Hl. exists o. auto.
Qed.

Lemma preserved_trans (st1 st2 st3 : state) :
  preserved st1 st2 -> preserved st2 st3 -> preserved st1 st3.
Proof.
  intros (Hs1 & Hn1 & Hh1) (Hs2 & Hn2 & Hh2).
  split; [auto|]. split; [congruence|].
  intros l o Hl.
  destruct (Hh1 l o Hl) as (o' & Hl' & Hc' & Hf' & Hi').
  destruct (Hh2 l o' Hl') as (o'' & Hl'' & Hc'' & Hf'' & Hi'').
  exists o''. split; [exact Hl''|]. split; [congruence|]. split.
  - intros field Hfield. rewrite Hf'' by assumption. auto.
  - intros Hne. rewrite Hi'' by congruence. auto.
Qed.

Lemma object_setattr_preserved (st : state) (name : string) (v : value) :
  getattr_or_None st name = VNone ->
  preserved st (object_setattr st name v).
Proof.
  intros Hnone. split; [|split; [reflexivity|]].
  - intros name' x Hx Hne. cbn [object_setattr slots].
    rewrite lookup_insert_ne; [exact Hx|].
    intros <-. unfold getattr_or_None in Hnone. rewrite Hx in Hnone.
    congruence.
  - intros l o Hl. exists o. auto.
Qed.

Lemma indicator_setattr_preserved (st : state) (l : nat) (o : indicator)
  (v : value) :
  heap st !! l = Some o ->
  class_of o = ExplicitPlayingIndicator ->
  preserved st (indicator_setattr st l "is_active" v).
Proof.
  intros Hl Hc. split; [|split].
  - intros name x Hx _. now rewrite indicator_setattr_slots.
  - unfold indicator_setattr. rewrite Hl. cbn [heap].
    apply length_insert.
  - intros l' o' Hl'. destruct (Nat.eq_dec l' l) as [->|Hne].
    + assert (o' = o) as -> by congruence.
      unfold indicator_setattr. rewrite Hl. cbn [heap].
      rewrite list_lookup_insert_eq by (eapply lookup_lt_Some; eassumption).
      eexists. split; [reflexivity|]. cbn [class_of fields].
      split; [reflexivity|]. split; [|congruence].
      intros field Hfield. apply lookup_insert_ne. congruence.
    + exists o'. rewrite indicator_setattr_other by assumption. auto.
Qed.

Lemma playing_setattr_preserved (st : state) (name : string) (v : value) :
  preserved st (snd (PlayingIndicatorCollection_setattr st name v)).
Proof.
  unfold PlayingIndicatorCollection_setattr.
  destruct (getattr_or_None st name) as [| | | |l] eqn:Hget;
    try apply preserved_refl.
  - now apply object_setattr_preserved.
  - destruct (isinstance_ExplicitPlayingIndicator st (VRef l)) eqn:He;
      [|apply preserved_refl].
    destruct (isinstance_explicit_inv st _ He) as (l' & o & [= <-] & Hl & Hc).
    now apply indicator_setattr_preserved with o.
Qed.

Lemma notation_setattr_preserved (st : state) (name : string) (v : value) :
  preserved st (snd (NotationIndicatorCollection_setattr st name v))
  /\ heap (snd (NotationIndicatorCollection_setattr st name v)) = heap st.
Proof.
  unfold NotationIndicatorCollection_setattr.
  destruct (getattr_or_None st name) eqn:Hget;
    try (split; [apply preserved_refl|reflexivity]).
  split; [now apply object_setattr_preserved|reflexivity].
Qed.

(** X3: whatever names and values a run of assignments through a
    collection uses, and whichever of them fail, every slot that was
    bound to something is still bound to the same thing afterwards, no
    object has come or gone, every object has kept its class and all its
    fields but [is_active], and every object that is no explicit playing
    indicator is untouched; a notation-indicator collection leaves
    every object untouched. *)
Theorem X3_assignments_never_rebind_a_slot
  (assignments : list (string * value)) (st : state) :
  preserved st (assign_all PlayingIndicatorCollection_setattr assignments st)
  /\ preserved st (assign_all NotationIndicatorCollection_setattr assignments st)
  /\ heap (assign_all NotationIndicatorCollection_setattr assignments st)
     = heap st.
Proof.
  revert st. induction assignments as [|[name v] rest IH]; intros st.
  - split; [apply preserved_refl|]. split; [apply preserved_refl|reflexivity].
  - cbn [assign_all].
    destruct (IH (snd (PlayingIndicatorCollection_setattr st name v)))
      as (Hp & _ & _).
    destruct (IH (snd (NotationIndicatorCollection_setattr st name v)))
      as (_ & Hn & Hh).
    destruct (notation_setattr_preserved st name v) as (Hn1 & Hh1).
    split; [|split].
    + eapply preserved_trans; [apply playing_setattr_preserved|exact Hp].
    + eapply preserved_trans; [exact Hn1|exact Hn].
    + congruence.
Qed.

(** ** Construction of a collection *)

Section Construction.

Variable setattr : state -> string -> value -> result unit * state.

(** Both collections store a value under a name that is not bound. *)
Hypothesis setattr_unbound :
  forall st name v,
    slots st !! name = None ->
    setattr st name v = (Ok tt, object_setattr st name v).

Lemma dataclass_init_fresh (declared : list (string * indicator_class)) :
  forall st,
    NoDup (map fst declared) ->
    (forall name, In name (map fst declared) -> slots st !! name = None) ->
    exists st',
      dataclass_init setattr declared st = (Ok tt, st')
      /\ heap st' = heap st ++ map (fun field => new_indicator (snd field)) declared
      /\ (forall k name c,
             declared !! k = Some (name, c) ->
             slots st' !! name = Some (VRef (length (heap st) + k)))
      /\ (forall name,
             ~ In name (map fst declared) -> slots st' !! name = slots st !! name).
Proof.
  induction declared as [|[n c] declared IH]; intros st Hnodup Hfree.
  - exists st. cbn [dataclass_init map]. rewrite app_nil_r.
    split; [reflexivity|]. split; [reflexivity|]. split; [|reflexivity].
    intros k name c Hk. destruct k; discriminate Hk.
  - cbn [map fst] in Hnodup, Hfree. apply NoDup_cons in Hnodup as [Hnotin Hnodup].
    cbn [dataclass_init].
    rewrite setattr_unbound by (cbn [slots]; apply Hfree; now left).
    set (st1 := object_setattr _ n _).
    destruct (IH st1 Hnodup) as (st' & Hinit & Hheap & Hslot & Hother).
    { intros name Hin. subst st1. cbn [object_setattr slots].
      rewrite lookup_insert_ne.
      - apply Hfree. now right.
      - intros <-. apply Hnotin. apply list_elem_of_In. exact Hin. }
    exists st'. split; [exact Hinit|]. split; [|split].
    + rewrite Hheap. subst st1. cbn [object_setattr heap map snd].
      rewrite <- app_assoc. reflexivity.
    + intros k name c' Hk. destruct k as [|k].
      * injection Hk as <- <-. rewrite Hother.
        -- subst st1. cbn [object_setattr slots]. rewrite lookup_insert_eq.
           rewrite Nat.add_0_r. reflexivity.
        -- intros Hin. apply Hnotin. apply list_elem_of_In. exact Hin.
      * cbn in Hk. rewrite (Hslot k name c' Hk). subst st1.
        cbn [object_setattr heap]. rewrite length_app. cbn [length].
        do 2 f_equal. lia.
    + intros name Hname. rewrite Hother.
      * subst st1. cbn [object_setattr slots]. apply lookup_insert_ne.
        intros <-. apply Hname. now left.
      * intros Hin. apply Hname. now right.
Qed.

End Construction.

Lemma playing_setattr_unbound (st : state) (name : string) (v : value) :
  slots st !! name = None ->
  PlayingIndicatorCollection_setattr st name v
  = (Ok tt, object_setattr st name v).
Proof.
  intros H. unfold PlayingIndicatorCollection_setattr, getattr_or_None.
  now rewrite H.
Qed.

Lemma notation_setattr_unbound (st : state) (name : string) (v : value) :
  slots st !! name = None ->
  NotationIndicatorCollection_setattr st name v
  = (Ok tt, object_setattr st name v).
Proof.
  intros H. unfold NotationIndicatorCollection_setattr, getattr_or_None.
  now rewrite H.
Qed.

(** X4: the generated initialiser of either collection never meets the
    guard of [__setattr__]: on a collection in which none of the declared
    names is bound yet, and for field names that are pairwise distinct,
    it raises nothing, appends one fresh default indicator per declared
    field, in declaration order, and binds every field to its own
    indicator, so that no two slots share an object; names that are not
    declared stay as they were. *)
Theorem X4_construction_binds_each_field_to_its_own_indicator
  (declared : list (string * indicator_class)) (st : state) :
  NoDup (map fst declared) ->
  (forall name, In name (map fst declared) -> slots st !! name = None) ->
  forall setattr,
    setattr = PlayingIndicatorCollection_setattr
    \/ setattr = NotationIndicatorCollection_setattr ->
    exists st',
      dataclass_init setattr declared st = (Ok tt, st')
      /\ length (heap st') = (length (heap st) + length declared)%nat
      /\ (forall l, (l < length (heap st))%nat -> heap st' !! l = heap st !! l)
      /\ (forall k name c,
             declared !! k = Some (name, c) ->
             slots st' !! name = Some (VRef (length (heap st) + k))
             /\ heap st' !! (length (heap st) + k)%nat = Some (new_indicator c))
      /\ (forall k k' name name' c c' l,
             declared !! k = Some (name, c) ->
             declared !! k' = Some (name', c') ->
             slots st' !! name = Some (VRef l) ->
             slots st' !! name' = Some (VRef l) ->
             name = name')
      /\ (forall name,
             ~ In name (map fst declared) -> slots st' !! name = slots st !! name).
Proof.
  intros Hnodup Hfree setattr Hsetattr.
  destruct (dataclass_init_fresh setattr) with (declared := declared) (st := st)
    as (st' & Hinit & Hheap & Hslot & Hother); trivial.
  { destruct Hsetattr as [-> | ->];
      [exact playing_setattr_unbound | exact notation_setattr_unbound]. }
  exists st'. split; [exact Hinit|]. split; [|split; [|split; [|split]]].
  - rewrite Hheap, length_app, length_map. reflexivity.
  - intros l Hl. rewrite Hheap. now apply lookup_app_l.
  - intros k name c Hk. split; [now apply (Hslot k name c)|].
    rewrite Hheap, lookup_app_r by lia.
    replace (length (heap st) + k - length (heap st))%nat with k by lia.
    rewrite list_lookup_fmap, Hk. reflexivity.
  - intros k k' name name' c c' l Hk Hk' Hl Hl'.
    rewrite (Hslot k name c Hk) in Hl. rewrite (Hslot k' name' c' Hk') in Hl'.
    assert (k = k') as -> by (injection Hl; injection Hl'; lia).
    congruence.
  - exact Hother.
Qed.

Lemma playing_fields_distinct :
  NoDup (map fst PlayingIndicatorCollection_fields).
Proof. apply (bool_decide_unpack _). vm_compute. exact I. Qed.

Lemma notation_fields_distinct :
  NoDup (map fst NotationIndicatorCollection_fields).
Proof. apply (bool_decide_unpack _). vm_compute. exact I. Qed.

(** [PlayingIndicatorCollection()]: 21 indicators, [tie] the nineteenth. *)
Lemma X4_witness_playing_indicator_collection :
  exists st',
    dataclass_init PlayingIndicatorCollection_setattr
      PlayingIndicatorCollection_fields empty_state
    = (Ok tt, st')
    /\ length (heap st') = 21%nat
    /\ slots st' !! "tie"%string = Some (VRef 18)
    /\ heap st' !! 18%nat = Some (new_indicator ExplicitPlayingIndicator).
Proof.
  destruct (X4_construction_binds_each_field_to_its_own_indicator
              PlayingIndicatorCollection_fields empty_state
              playing_fields_distinct
              (fun name _ => lookup_empty name)
              PlayingIndicatorCollection_setattr (or_introl eq_refl))
    as (st' & Hinit & Hlength & _ & Hslot & _).
  exists st'. split; [exact Hinit|]. split; [exact Hlength|].
  exact (Hslot 18%nat "tie"%string ExplicitPlayingIndicator eq_refl).
Defined.

(** ** The explicit indicators of a collection in use *)

Section LastAssignment.

Variable declared : list (string * indicator_class).
Variable first : nat.
Hypothesis distinct : NoDup (map fst declared).

Lemma declared_index (name : string) :
  In name (map fst declared) -> exists k c, declared !! k = Some (name, c).
Proof.
  intros Hin. apply in_map_iff in Hin as ([name' c] & Hfst & Hin).
  cbn [fst] in Hfst. subst name'.
  apply list_elem_of_In, list_elem_of_lookup in Hin as [k Hk]. eauto.
Qed.

Lemma declared_same_name (k k' : nat) (name : string) (c c' : indicator_class) :
  declared !! k = Some (name, c) ->
  declared !! k' = Some (name, c') ->
  k = k' /\ c = c'.
Proof.
  intros Hk Hk'.
  assert (k = k') as <-.
  { apply (NoDup_lookup (map fst declared) k k' name distinct).
    - change (map fst declared) with (fst <$> declared).
      now rewrite list_lookup_fmap, Hk.
    - change (map fst declared) with (fst <$> declared).
      now rewrite list_lookup_fmap, Hk'. }
  split; [reflexivity|congruence].
Qed.

Lemma assignment_step (st : state) (n : string) (v : value) :
  bound_in_order declared first st ->
  In n (map fst declared) ->
  bound_in_order declared first
    (snd (PlayingIndicatorCollection_setattr st n v))
  /\ forall k name,
      declared !! k = Some (name, ExplicitPlayingIndicator) ->
      indicator_getattr (snd (PlayingIndicatorCollection_setattr st n v))
        (first + k) "is_active"
      = if String.eqb n name
        then Some (VBool (truth v))
        else indicator_getattr st (first + k) "is_active".
Proof.
  intros Hbound Hin.
  destruct (declared_index n Hin) as (k0 & c0 & Hk0).
  destruct (Hbound k0 n c0 Hk0) as (Hslot & Hclass).
  destruct (heap st !! (first + k0)%nat) as [o|] eqn:Hobject; [|discriminate].
  injection Hclass as Hclass.
  assert (c0 = ExplicitPlayingIndicator \/ c0 <> ExplicitPlayingIndicator)
    as [->|Himplicit]
    by (destruct c0; first [left; reflexivity | right; discriminate]).
  - rewrite (playing_setattr_explicit st n (first + k0) o v) by assumption.
    cbn [snd]. split.
    + intros k name c Hk. destruct (Hbound k name c Hk) as (Hs & Hc).
      rewrite indicator_setattr_slots. split; [exact Hs|].
      destruct (Nat.eq_dec k k0) as [->|Hne].
      * rewrite (indicator_setattr_class st _ o) by assumption.
        rewrite Hobject in Hc. exact Hc.
      * rewrite indicator_setattr_other by lia. exact Hc.
    + intros k name Hk. destruct (String.eqb n name) eqn:E.
      * apply String.eqb_eq in E. subst name.
        destruct (declared_same_name k k0 n _ _ Hk Hk0) as [-> _].
        now apply indicator_setattr_read with o.
      * apply String.eqb_neq in E. unfold indicator_getattr.
        rewrite indicator_setattr_other; [reflexivity|].
        intros Heq. assert (k = k0) as -> by lia. congruence.
  - rewrite (playing_setattr_frozen st n (VRef (first + k0)) v);
      [|assumption|discriminate|].
    + cbn [snd]. split; [exact Hbound|].
      intros k name Hk. destruct (String.eqb n name) eqn:E; [|reflexivity].
      apply String.eqb_eq in E. subst name.
      destruct (declared_same_name k k0 n _ _ Hk Hk0) as [_ Hc]. congruence.
    + cbn [isinstance_ExplicitPlayingIndicator]. rewrite Hobject, Hclass.
      destruct c0; try reflexivity. congruence.
Qed.

Lemma run_last_assignment (assignments : list (string * value)) :
  forall st,
    bound_in_order declared first st ->
    Forall (fun a => In (fst a) (map fst declared)) assignments ->
    bound_in_order declared first
      (assign_all PlayingIndicatorCollection_setattr assignments st)
    /\ forall k name,
        declared !! k = Some (name, ExplicitPlayingIndicator) ->
        indicator_getattr
          (assign_all PlayingIndicatorCollection_setattr assignments st)
          (first + k) "is_active"
        = match last_assigned name assignments with
          | Some v => Some (VBool (truth v))
          | None => indicator_getattr st (first + k) "is_active"
          end.
Proof.
  induction assignments as [|[n v] rest IH]; intros st Hbound Hall.
  - split; [exact Hbound|reflexivity].
  - apply Forall_cons in Hall as [Hn Hrest]. cbn [fst] in Hn.
    destruct (assignment_step st n v Hbound Hn) as (Hbound' & Hstep).
    destruct (IH _ Hbound' Hrest) as (Hbound'' & Hrun).
    cbn [assign_all]. split; [exact Hbound''|].
    intros k name Hk. rewrite (Hrun k name Hk). cbn [last_assigned].
    destruct (last_assigned name rest); [reflexivity|].
    rewrite (Hstep k name Hk). destruct (String.eqb n name); reflexivity.
Qed.

End LastAssignment.

Lemma fresh_playing_collection :
  bound_in_order PlayingIndicatorCollection_fields 0
    PlayingIndicatorCollection_new
  /\ forall k name,
      PlayingIndicatorCollection_fields !! k
      = Some (name, ExplicitPlayingIndicator) ->
      indicator_getattr PlayingIndicatorCollection_new k "is_active"
      = Some (VBool false).
Proof.
  destruct (dataclass_init_fresh PlayingIndicatorCollection_setattr
              playing_setattr_unbound PlayingIndicatorCollection_fields
              empty_state playing_fields_distinct
              (fun name _ => lookup_empty name))
    as (st' & Hinit & Hheap & Hslot & _).
  unfold PlayingIndicatorCollection_new. rewrite Hinit. cbn [snd].
  cbn [empty_state heap app length] in Hheap, Hslot.
  assert (Hobject : forall k name c,
             PlayingIndicatorCollection_fields !! k = Some (name, c) ->
             heap st' !! k = Some (new_indicator c)).
  { intros k name c Hk. rewrite Hheap.
    change (map ?f ?l) with (f <$> l). now rewrite list_lookup_fmap, Hk. }
  split.
  - intros k name c Hk. cbn [Nat.add]. split; [exact (Hslot k name c Hk)|].
    now rewrite (Hobject k name c Hk).
  - intros k name Hk. unfold indicator_getattr.
    rewrite (Hobject k name _ Hk). reflexivity.
Qed.

(** X5: on a fresh playing-indicator collection, after any run of
    assignments to declared slots, whatever the values and whichever of
    the assignments fail, every explicit indicator is still in its slot
    and is active exactly when the last value assigned to its own slot
    is true; it is inactive when its slot was never assigned. *)
Theorem X5_last_assignment_to_a_slot_wins
  (assignments : list (string * value)) (k : nat) (name : string) :
  Forall (fun a => In (fst a) (map fst PlayingIndicatorCollection_fields))
    assignments ->
  PlayingIndicatorCollection_fields !! k
  = Some (name, ExplicitPlayingIndicator) ->
  let after :=
    assign_all PlayingIndicatorCollection_setattr assignments
      PlayingIndicatorCollection_new in
  slots after !! name = Some (VRef k)
  /\ indicator_getattr after k "is_active"
     = Some (VBool match last_assigned name assignments with
                   | Some v => truth v
                   | None => false
                   end).
Proof.
  intros Hall Hk after.
  destruct fresh_playing_collection as (Hbound & Hfresh).
  destruct (run_last_assignment PlayingIndicatorCollection_fields 0
              playing_fields_distinct assignments
              PlayingIndicatorCollection_new Hbound Hall)
    as (Hbound' & Hrun).
  split.
  - exact (proj1 (Hbound' k name _ Hk)).
  - specialize (Hrun k name Hk). cbn [Nat.add] in Hrun. subst after.
    rewrite Hrun. destruct (last_assigned name assignments); [reflexivity|].
    exact (Hfresh k name Hk).
Qed.

(** [tie] switched on, two other slots assigned, one of them frozen,
    and [tie] switched off by the integer 0. *)
Lemma X5_witness_tie :
  slots
    (assign_all PlayingIndicatorCollection_setattr
       [("tie", VBool true); ("prall", VStr "x"); ("articulation", VInt 3);
        ("tie", VInt 0)]%string
       PlayingIndicatorCollection_new) !! "tie"%string
  = Some (VRef 18)
  /\ indicator_getattr
       (assign_all PlayingIndicatorCollection_setattr
          [("tie", VBool true); ("prall", VStr "x"); ("articulation", VInt 3);
           ("tie", VInt 0)]%string
          PlayingIndicatorCollection_new) 18 "is_active"
     = Some (VBool false).
Proof.
  apply (X5_last_assignment_to_a_slot_wins
           [("tie", VBool true); ("prall", VStr "x"); ("articulation", VInt 3);
            ("tie", VInt 0)]%string 18 "tie"%string).
  - repeat (constructor; [cbn; tauto|]). constructor.
  - reflexivity.
Defined.

(** ** The outcomes of the conversion of a name *)

(** X6: the conversion of a pitch-class name fails in exactly three
    ways and in this order: with [IndexError] on the empty name, with
    [KeyError] when the first character is no diatonic letter (whatever
    follows it), with [NotImplementedError] when the letter is known and
    the rest is no accidental of the table; it returns a number only
    for a known letter followed by a known accidental, and that number
    is the base offset of the letter plus the offset of the accidental
    whenever a double holds the sum.  The constructor fails on a name
    with the exception of the conversion. *)
Theorem X6_outcomes_of_name_to_number (ACC : list (string * Q)) (name : string) :
  (_pitch_class_name_to_pitch_class ACC name = Raise IndexError
   <-> name = EmptyString)
  /\ (_pitch_class_name_to_pitch_class ACC name = Raise KeyError
      <-> exists c rest,
          name = String c rest
          /\ dict_get DIATONIC_PITCH_NAME_TO_PITCH_CLASS_DICT
               (String c EmptyString) = None)
  /\ (_pitch_class_name_to_pitch_class ACC name = Raise NotImplementedError
      <-> exists c rest base,
          name = String c rest
          /\ dict_get DIATONIC_PITCH_NAME_TO_PITCH_CLASS_DICT
               (String c EmptyString) = Some base
          /\ dict_get ACC rest = None)
  /\ (forall number,
         _pitch_class_name_to_pitch_class ACC name = Ok number ->
         exists c rest base offset,
           name = String c rest
           /\ dict_get DIATONIC_PITCH_NAME_TO_PITCH_CLASS_DICT
                (String c EmptyString) = Some base
           /\ dict_get ACC rest = Some offset)
  /\ (forall c rest base offset,
         name = String c rest ->
         dict_get DIATONIC_PITCH_NAME_TO_PITCH_CLASS_DICT
           (String c EmptyString) = Some base ->
         dict_get ACC rest = Some offset ->
         is_double (inject_Z base + offset) ->
         exists number,
           _pitch_class_name_to_pitch_class ACC name = Ok number
           /\ (number == inject_Z base + offset)%Q)
  /\ (forall e,
         _pitch_class_name_to_pitch_class ACC name = Raise e ->
         (e = IndexError \/ e = KeyError \/ e = NotImplementedError)
         /\ forall INV octave,
             __init__ ACC INV (PitchClassName name) octave = Raise e).
Proof.
  assert (Hcases :
            (name = EmptyString
             /\ _pitch_class_name_to_pitch_class ACC name = Raise IndexError)
            \/ (exists c rest,
                   name = String c rest
                   /\ dict_get DIATONIC_PITCH_NAME_TO_PITCH_CLASS_DICT
                        (String c EmptyString) = None
                   /\ _pitch_class_name_to_pitch_class ACC name
                      = Raise KeyError)
            \/ (exists c rest base,
                   name = String c rest
                   /\ dict_get DIATONIC_PITCH_NAME_TO_PITCH_CLASS_DICT
                        (String c EmptyString) = Some base
                   /\ dict_get ACC rest = None
                   /\ _pitch_class_name_to_pitch_class ACC name
                      = Raise NotImplementedError)
            \/ (exists c rest base offset,
                   name = String c rest
                   /\ dict_get DIATONIC_PITCH_NAME_TO_PITCH_CLASS_DICT
                        (String c EmptyString) = Some base
                   /\ dict_get ACC rest = Some offset
                   /\ _pitch_class_name_to_pitch_class ACC name
                      = Ok (float (inject_Z base + offset)))).
  { unfold _pitch_class_name_to_pitch_class.
    destruct name as [|c rest]; cbn [str_first str_rest bind]; [now left|].
    right.
    destruct (dict_get DIATONIC_PITCH_NAME_TO_PITCH_CLASS_DICT
                (String c EmptyString)) as [base|] eqn:Hbase;
      cbn [bind of_option]; [right|left; exists c, rest; auto].
    unfold _accidental_to_pitch_class_modifications.
    destruct (dict_get ACC rest) as [offset|] eqn:Hoffset; cbn [bind].
    - right. exists c, rest, base, offset. auto.
    - left. exists c, rest, base. auto. }
  assert (Hinit : forall e,
             _pitch_class_name_to_pitch_class ACC name = Raise e ->
             forall INV octave,
               __init__ ACC INV (PitchClassName name) octave = Raise e).
  { intros e He INV octave. unfold __init__.
    cbn [_pitch_class_or_pitch_class_name_to_pitch_class_and_pitch_class_name].
    rewrite He. reflexivity. }
  destruct Hcases
    as [(Hname & Hrun)
       |[(c & rest & Hname & Hbase & Hrun)
        |[(c & rest & base & Hname & Hbase & Hoffset & Hrun)
         |(c & rest & base & offset & Hname & Hbase & Hoffset & Hrun)]]];
    rewrite Hrun in *; subst name.
  - split; [tauto|]. split; [|split; [|split; [|split]]].
    + split; [discriminate|]. intros (c & rest & H & _). discriminate.
    + split; [discriminate|]. intros (c & rest & base & H & _). discriminate.
    + discriminate.
    + intros c rest base offset H. discriminate.
    + intros e [= <-]. split; [auto|]. now apply Hinit.
  - split; [split; discriminate|].
    split; [|split; [|split; [|split]]].
    + split; [|reflexivity]. intros _. exists c, rest. auto.
    + split; [discriminate|].
      intros (c' & rest' & base & [= <- <-] & H & _). congruence.
    + discriminate.
    + intros c' rest' base offset [= <- <-] H. congruence.
    + intros e [= <-]. split; [auto|]. now apply Hinit.
  - split; [split; discriminate|].
    split; [|split; [|split; [|split]]].
    + split; [discriminate|].
      intros (c' & rest' & [= <- <-] & H). congruence.
    + split; [|reflexivity]. intros _. exists c, rest, base. auto.
    + discriminate.
    + intros c' rest' base' offset [= <- <-] _ H. congruence.
    + intros e [= <-]. split; [auto|]. now apply Hinit.
  - split; [split; discriminate|].
    split; [|split; [|split; [|split]]].
    + split; [discriminate|].
      intros (c' & rest' & [= <- <-] & H). congruence.
    + split; [discriminate|].
      intros (c' & rest' & base' & [= <- <-] & _ & H). congruence.
    + intros number _. exists c, rest, base, offset. auto.
    + intros c' rest' base' offset' [= <- <-] Hbase' Hoffset' _.
      assert (base' = base) as -> by congruence.
      assert (offset' = offset) as -> by congruence.
      eexists. split; [reflexivity|apply Qred_correct].
    + discriminate.
Qed.

(** ** The name chosen for a number *)

(** Whatever the number, the scan of the diatonic table ends on one of
    the seven letters, and no letter has a base offset closer to the
    number. *)
Lemma closest_diatonic_exists (x : Q) :
  exists j letter base,
    find_closest_index x
      (map inject_Z (dict_values DIATONIC_PITCH_NAME_TO_PITCH_CLASS_DICT))
    = Some j
    /\ nth_error (dict_values DIATONIC_PITCH_NAME_TO_PITCH_CLASS_DICT) j
       = Some base
    /\ nth_error (dict_keys DIATONIC_PITCH_NAME_TO_PITCH_CLASS_DICT) j
       = Some letter
    /\ dict_get DIATONIC_PITCH_NAME_TO_PITCH_CLASS_DICT letter = Some base
    /\ forall letter' base',
        dict_get DIATONIC_PITCH_NAME_TO_PITCH_CLASS_DICT letter' = Some base' ->
        (Qabs (x - inject_Z base) <= Qabs (x - inject_Z base'))%Q.
Proof.
  destruct (find_closest_index_some x
              (map inject_Z (dict_values DIATONIC_PITCH_NAME_TO_PITCH_CLASS_DICT)))
    as [j Hj]; [discriminate|].
  destruct (find_closest_index_min _ _ _ Hj) as (y & Hnth & Hmin).
  assert (Hentry : exists letter base,
             nth_error (dict_values DIATONIC_PITCH_NAME_TO_PITCH_CLASS_DICT) j
             = Some base
             /\ nth_error (dict_keys DIATONIC_PITCH_NAME_TO_PITCH_CLASS_DICT) j
                = Some letter
             /\ dict_get DIATONIC_PITCH_NAME_TO_PITCH_CLASS_DICT letter
                = Some base
             /\ y = inject_Z base).
  { clear Hj Hmin.
    do 7 (destruct j as [|j];
          [ injection Hnth as <-; do 2 eexists; repeat split; reflexivity | ]).
    destruct j; discriminate Hnth. }
  destruct Hentry as (letter & base & Hvalue & Hkey & Hget & ->).
  exists j, letter, base. repeat split; try assumption.
  intros letter' base' Hget'. apply Hmin.
  apply dict_get_In in Hget'. apply in_map.
  unfold dict_values. change base' with (snd (letter', base')). now apply in_map.
Qed.

(** A key of the table of offsets is found by the lookup. *)
Lemma dict_get_num_key {V : Type} (d : list (Q * V)) (key : Q) :
  In key (dict_keys d) -> exists v, dict_get_num d key = Some v.
Proof.
  unfold dict_keys. intros Hin. apply in_map_iff in Hin.
  destruct Hin as ([key' v] & Hfst & Hin). cbn [fst] in Hfst. subst key'.
  induction d as [|[k' v'] d IH]; [destruct Hin|].
  cbn [dict_get_num]. destruct (Qeq_bool k' key) eqn:E; [eauto|].
  destruct Hin as [[= -> ->]|Hin]; [|auto].
  apply Qeq_bool_neq in E. exfalso. apply E. reflexivity.
Qed.

(** Whatever the residual, the scan of a table of offsets that is not
    empty ends on one of its keys, and no key is closer to the
    residual. *)
Lemma closest_accidental_exists (INV : list (Q * string)) (residual : Q) :
  INV <> [] ->
  exists key accidental,
    _difference_to_closest_diatonic_pitch_to_accidental INV residual
    = Ok accidental
    /\ In key (dict_keys INV)
    /\ dict_get_num INV key = Some accidental
    /\ forall key',
        In key' (dict_keys INV) ->
        (Qabs (residual - key) <= Qabs (residual - key'))%Q.
Proof.
  intros Hne. unfold _difference_to_closest_diatonic_pitch_to_accidental,
    find_closest_item.
  destruct (find_closest_index_some residual (dict_keys INV)) as [j Hj].
  { destruct INV; [congruence|discriminate]. }
  destruct (find_closest_index_min _ _ _ Hj) as (key & Hnth & Hmin).
  rewrite Hj, Hnth. cbn [bind of_option].
  assert (Hin : In key (dict_keys INV)) by (eapply nth_error_In; eassumption).
  destruct (dict_get_num_key INV key Hin) as [accidental Hget].
  exists key, accidental. rewrite Hget. auto.
Qed.

Lemma number_to_name_closest (INV : list (Q * string)) (x : Q) :
  INV <> [] ->
  exists letter base key accidental,
    _pitch_class_to_pitch_class_name INV x = Ok (letter +:+ accidental)
    /\ dict_get DIATONIC_PITCH_NAME_TO_PITCH_CLASS_DICT letter = Some base
    /\ (forall letter' base',
           dict_get DIATONIC_PITCH_NAME_TO_PITCH_CLASS_DICT letter'
           = Some base' ->
           (Qabs (x - inject_Z base) <= Qabs (x - inject_Z base'))%Q)
    /\ In key (dict_keys INV)
    /\ dict_get_num INV key = Some accidental
    /\ (forall key',
           In key' (dict_keys INV) ->
           (Qabs (x - inject_Z base - key) <= Qabs (x - inject_Z base - key'))%Q).
Proof.
  intros Hne.
  destruct (closest_diatonic_exists x)
    as (j & letter & base & Hj & Hvalue & Hkey & Hget & Hmin).
  destruct (closest_accidental_exists INV (x - inject_Z base) Hne)
    as (key & accidental & Hacc & Hin & Hnum & Hmin').
  exists letter, base, key, accidental.
  unfold _pitch_class_to_pitch_class_name.
  rewrite Hj. cbn [bind of_option]. rewrite Hvalue. cbn [bind of_option].
  rewrite Hkey. cbn [bind of_option]. rewrite Hacc. cbn [bind].
  auto 10.
Qed.

(** X7: the conversion of a number to a name raises [IndexError] when
    the table of offsets is empty and otherwise never fails, whatever
    the number: it returns a diatonic letter none of whose rivals has a
    base offset closer to the number, followed by the accidental filed
    under a key none of whose rivals is closer to what the letter leaves
    of the number; so the constructor builds a pitch from every
    number. *)
Theorem X7_number_to_name_takes_the_closest
  (ACC : list (string * Q)) (INV : list (Q * string)) (x : Q) :
  (INV = [] -> _pitch_class_to_pitch_class_name INV x = Raise IndexError)
  /\ (INV <> [] ->
      exists letter base key accidental,
        _pitch_class_to_pitch_class_name INV x = Ok (letter +:+ accidental)
        /\ dict_get DIATONIC_PITCH_NAME_TO_PITCH_CLASS_DICT letter = Some base
        /\ (forall letter' base',
               dict_get DIATONIC_PITCH_NAME_TO_PITCH_CLASS_DICT letter'
               = Some base' ->
               (Qabs (x - inject_Z base) <= Qabs (x - inject_Z base'))%Q)
        /\ In key (dict_keys INV)
        /\ dict_get_num INV key = Some accidental
        /\ (forall key',
               In key' (dict_keys INV) ->
               (Qabs (x - inject_Z base - key)
                <= Qabs (x - inject_Z base - key'))%Q)
        /\ forall octave,
            __init__ ACC INV (PitchClass x) octave
            = Ok {| _pitch_class := float x;
                    octave := octave;
                    _pitch_class_name := letter +:+ accidental |}).
Proof.
  split.
  - intros ->.
    destruct (closest_diatonic_exists x)
      as (j & letter & base & Hj & Hvalue & Hkey & _).
    unfold _pitch_class_to_pitch_class_name.
    rewrite Hj. cbn [bind of_option]. rewrite Hvalue. cbn [bind of_option].
    rewrite Hkey. reflexivity.
  - intros Hne.
    destruct (number_to_name_closest INV x Hne)
      as (letter & base & key & accidental & Hname & H).
    exists letter, base, key, accidental.
    split; [exact Hname|]. repeat (split; [apply H|]).
    intros octave. unfold __init__.
    cbn [_pitch_class_or_pitch_class_name_to_pitch_class_and_pitch_class_name].
    rewrite Hname. reflexivity.
Qed.

(** The number 3/10 against the table of offsets: c quarter-sharp. *)
Lemma X7_witness_three_tenths :
  exists letter base key accidental,
    number_to_name (3 # 10) = Ok (letter +:+ accidental)
    /\ dict_get DIATONIC_PITCH_NAME_TO_PITCH_CLASS_DICT letter = Some base
    /\ In key (dict_keys modification_table)
    /\ dict_get_num modification_table key = Some accidental.
Proof.
  destruct (proj2 (X7_number_to_name_takes_the_closest
                     accidental_table modification_table (3 # 10))
              ltac:(discriminate))
    as (letter & base & key & accidental & H1 & H2 & _ & H3 & H4 & _).
  exists letter, base, key, accidental. auto.
Defined.



(** ** Adding an interval and taking it away again *)

Lemma tuple_index_nth (t : list string) (x : string) (k : nat) :
  tuple_index t x = Some k -> nth_error t k = Some x.
Proof.
  revert k. induction t as [|y t IH]; intros k; [discriminate|].
  cbn [tuple_index]. destruct (String.eqb y x) eqn:E.
  - apply String.eqb_eq in E. intros [= <-]. now subst.
  - destruct (tuple_index t x) as [k'|]; [|discriminate].
    cbn [option_map]. intros [= <-]. cbn [nth_error]. auto.
Qed.

(** The step back from where a step has led returns to the start and
    takes back the octaves. *)
Lemma step_back (idx : nat) (i : WesternPitchInterval) :
  (idx < 7)%nat ->
  let reached := absolute_index idx i in
  let back :=
    absolute_index (Z.to_nat (reached mod 7)) (inverse_direction i) in
  back mod 7 = Z.of_nat idx /\ back / 7 = - (reached / 7).
Proof.
  intros Hidx reached back.
  pose proof (Z.mod_pos_bound reached 7 ltac:(lia)) as Hm.
  pose proof (Z.div_mod reached 7 ltac:(lia)) as Hdm.
  assert (Hback : back = 7 * (- (reached / 7)) + Z.of_nat idx).
  { subst back. unfold absolute_index in *.
    cbn [inverse_direction is_interval_falling interval_type].
    rewrite Z2Nat.id by lia. subst reached. unfold absolute_index in *.
    destruct (is_interval_falling i); cbn [negb]; lia. }
  split; symmetry.
  - apply Z.mod_unique with (q := - (reached / 7)); [left; lia|exact Hback].
  - apply Z.div_unique with (r := Z.of_nat idx); [left; lia|exact Hback].
Qed.

Section Undo.

Variable ACC : list (string * Q).
Variable INV : list (Q * string).
Variable COMP : list ((string * string) * Q).
Variable super_add : WesternPitch -> interval_operand -> result WesternPitch.
Hypothesis agree : tables_agree ACC INV = true.

Lemma add_inverse_undoes (self after : WesternPitch) (i : WesternPitchInterval) :
  number_follows_name ACC self ->
  (forall offset,
      dict_get ACC (accidental_name self) = Some offset ->
      dict_get_num INV offset = Some (accidental_name self)) ->
  _add_western_pitch_interval ACC INV COMP super_add self i = (Ok after, []) ->
  _add_western_pitch_interval ACC INV COMP super_add after (inverse_direction i)
  = (Ok self, []).
Proof.
  intros Hfollows Hcanonical Hadd.
  destruct (diatonic_path ACC INV COMP super_add self i after Hadd)
    as (letter1 & count1 & m1 & acc1 & pc1 & Hstep & Hmod & Hacc & Hpc & ->).
  assert (Hstart : exists letter idx,
             diatonic_pitch_class_name self = Ok letter
             /\ tuple_index ASCENDING_DIATONIC_PITCH_NAME_TUPLE letter = Some idx).
  { unfold _get_new_diatonic_pitch_class_name_and_octave_count in Hstep.
    destruct (diatonic_pitch_class_name self) as [letter|]; [|discriminate].
    cbn [bind] in Hstep.
    destruct (tuple_index ASCENDING_DIATONIC_PITCH_NAME_TUPLE letter)
      as [idx|] eqn:Hidx; [|discriminate].
    exists letter, idx. split; [reflexivity|exact Hidx]. }
  destruct Hstart as (letter & idx & Hletter & Hidx).
  destruct (stepping_result self i letter idx Hletter Hidx)
    as (c1 & Hstep' & Hback1).
  rewrite Hstep' in Hstep. injection Hstep as <- <-.
  pose proof (tuple_index_nth _ _ _ Hidx) as Hnth.
  assert (Hlt : (idx < 7)%nat).
  { change 7%nat with (length ASCENDING_DIATONIC_PITCH_NAME_TUPLE).
    apply nth_error_Some. congruence. }
  destruct (step_back idx i Hlt) as (Hmod7 & Hdiv7).
  set (after := {| _pitch_class := pc1;
                   octave := octave self + absolute_index idx i / 7;
                   _pitch_class_name := String c1 EmptyString +:+ acc1 |}).
  destruct (stepping_result after (inverse_direction i) (String c1 EmptyString)
              (Z.to_nat (absolute_index idx i mod 7)) eq_refl Hback1)
    as (c2 & Hstep2 & Hback2).
  rewrite Hmod7, Nat2Z.id in Hback2. rewrite Hdiv7 in Hstep2.
  apply tuple_index_nth in Hback2.
  assert (Hc2 : String c2 EmptyString = letter) by congruence.
  rewrite Hc2 in Hstep2. clear Hc2 Hback2 c2.
  (* the name of the start *)
  assert (Hname : letter +:+ accidental_name self = _pitch_class_name self).
  { unfold diatonic_pitch_class_name, accidental_name, pitch_class_name in *.
    destruct (_pitch_class_name self) as [|c rest]; [discriminate|].
    cbn in Hletter. injection Hletter as <-. reflexivity. }
  (* the modification of the first step *)
  unfold _get_new_pitch_class_modification in Hmod.
  rewrite Hletter in Hmod. cbn [bind] in Hmod.
  destruct (dict_get_pair COMP _) as [compensation|] eqn:Hcomp in Hmod;
    [|discriminate].
  cbn [bind of_option] in Hmod.
  destruct (dict_get ACC (accidental_name self)) as [m|] eqn:Hm; [|discriminate].
  cbn [bind of_option] in Hmod. injection Hmod as Hm1.
  destruct (agree_name_has_offset ACC INV agree m1 acc1 Hacc)
    as (o1 & Ho1 & Heq1).
  (* the way back *)
  unfold _add_western_pitch_interval. rewrite Hstep2.
  unfold _get_new_pitch_class_modification.
  change (diatonic_pitch_class_name after) with (@Ok string (String c1 EmptyString)).
  change (accidental_name after) with acc1.
  cbn [bind inverse_direction is_interval_falling
         interval_quality_cent_deviation].
  assert (Hkey :
            (if negb (is_interval_falling i)
             then (letter, String c1 EmptyString)
             else (String c1 EmptyString, letter))
            = (if is_interval_falling i
               then (String c1 EmptyString, letter)
               else (letter, String c1 EmptyString)))
    by (destruct (is_interval_falling i); reflexivity).
  rewrite Hkey, Hcomp. cbn [bind of_option]. rewrite Ho1. cbn [bind of_option].
  set (added := Qred (inject_Z (int (interval_quality_cent_deviation i
                                     + compensation)) / 100)) in *.
  assert (Hreturn :
            (_western_pitch_interval_to_operator (inverse_direction i)
               o1 added == m)%Q).
  { unfold _western_pitch_interval_to_operator, inverse_direction in *.
    cbn [is_interval_falling].
    destruct (is_interval_falling i); cbn [negb];
      rewrite Qred_correct, Heq1, <- Hm1, Qred_correct; ring. }
  rewrite (dict_get_num_Qeq INV _ m Hreturn), (Hcanonical m eq_refl).
  rewrite Hname. unfold silent, set_pitch_class_name.
  rewrite Hfollows. cbn [bind _pitch_class octave _pitch_class_name after].
  do 2 f_equal. destruct self as [pc oct name]. cbn. f_equal. lia.
Qed.

End Undo.

Lemma inverse_direction_involutive (i : WesternPitchInterval) :
  inverse_direction (inverse_direction i) = i.
Proof.
  destruct i as [t f d]. unfold inverse_direction. cbn.
  now rewrite negb_involutive.
Qed.

(** X9: on the diatonic path an interval added is taken away again by
    subtracting it, and an interval subtracted is restored by adding it.
    For a pitch whose number is the one its name stands for and whose
    accidental is the name the table of offsets files under its own
    offset: if adding (subtracting) the interval ends without a warning,
    then subtracting (adding) the same interval from the result ends
    without a warning too and hands back the pitch one started from,
    letter, accidental, number and octave.  The two accidental tables are
    the one mapping read in both directions. *)
Theorem X9_subtract_undoes_add
  (ACC : list (string * Q)) (INV : list (Q * string))
  (COMP : list ((string * string) * Q))
  (of_str : string -> result WesternPitchInterval)
  (of_real : Q -> result WesternPitchInterval)
  (super_add super_subtract :
     WesternPitch -> interval_operand -> result WesternPitch)
  (self : WesternPitch) (i : WesternPitchInterval) :
  tables_agree ACC INV = true ->
  number_follows_name ACC self ->
  (forall offset,
      dict_get ACC (accidental_name self) = Some offset ->
      dict_get_num INV offset = Some (accidental_name self)) ->
  (forall after,
      add ACC INV COMP of_str of_real super_add self
        (OfWesternPitchInterval i) = (Ok after, []) ->
      subtract ACC INV COMP of_str of_real super_add super_subtract after
        (OfWesternPitchInterval i) = (Ok self, []))
  /\ (forall after,
         subtract ACC INV COMP of_str of_real super_add super_subtract self
           (OfWesternPitchInterval i) = (Ok after, []) ->
         add ACC INV COMP of_str of_real super_add after
           (OfWesternPitchInterval i) = (Ok self, [])).
Proof.
  intros Hagree Hfollows Hcanonical. split; intros after Hfirst.
  - change (_add_western_pitch_interval ACC INV COMP super_add after
              (inverse_direction i) = (Ok self, [])).
    now apply add_inverse_undoes.
  - change (_add_western_pitch_interval ACC INV COMP super_add after i
            = (Ok self, [])).
    rewrite <- (inverse_direction_involutive i).
    now apply add_inverse_undoes.
Qed.

(** A major third above c in octave 4 and back. *)
Lemma X9_witness_third_on_c :
  pitch_subtract (pitch_named "e" 4) (OfWesternPitchInterval (rising 3))
  = (Ok (pitch_named "c" 4), []).
Proof.
  assert (Hcanonical :
            forall offset,
              dict_get accidental_table (accidental_name (pitch_named "c" 4))
              = Some offset ->
              dict_get_num modification_table offset
              = Some (accidental_name (pitch_named "c" 4)))
    by (intros offset [= <-]; reflexivity).
  destruct (X9_subtract_undoes_add
              accidental_table modification_table compensation_table
              interval_of_str interval_of_real numeric_add numeric_subtract
              (pitch_named "c" 4) (rising 3) eq_refl eq_refl Hcanonical)
    as (Hundo & _).
  apply Hundo. vm_compute. reflexivity.
Defined.

(** ** Compound intervals *)

(** X10: widening an interval by [k] octaves, that is by [7 * k]
    diatonic steps, leads to the same letter, [k] octaves further in the
    direction of the interval; the octave thus reaches a compound
    interval of any size, and the letter depends only on the size of the
    interval within the octave. *)
Theorem X10_octaves_of_a_compound_interval
  (self : WesternPitch) (i : WesternPitchInterval) (k : Z)
  (letter : string) (count : Z) :
  _get_new_diatonic_pitch_class_name_and_octave_count self i
  = Ok (letter, count) ->
  _get_new_diatonic_pitch_class_name_and_octave_count self
    {| interval_type := interval_type i + DIATONIC_PITCH_CLASS_COUNT * k;
       is_interval_falling := is_interval_falling i;
       interval_quality_cent_deviation := interval_quality_cent_deviation i |}
  = Ok (letter, if is_interval_falling i then count - k else count + k).
Proof.
  unfold _get_new_diatonic_pitch_class_name_and_octave_count.
  destruct (diatonic_pitch_class_name self) as [start|]; [|discriminate].
  cbn [bind].
  destruct (tuple_index ASCENDING_DIATONIC_PITCH_NAME_TUPLE start) as [idx|];
    [|discriminate].
  cbn [bind of_option interval_type is_interval_falling].
  unfold _western_pitch_interval_to_operator_int, DIATONIC_PITCH_CLASS_COUNT.
  cbn [is_interval_falling].
  destruct (is_interval_falling i).
  - replace (Z.of_nat idx - (interval_type i + 7 * k - 1))
      with (Z.of_nat idx - (interval_type i - 1) + (- k) * 7) by lia.
    rewrite Z_mod_plus_full, Z_div_plus_full by lia.
    destruct (nth_error _ _) as [new_letter|]; [|discriminate].
    cbn [bind of_option]. intros [= <- <-]. do 2 f_equal; lia.
  - replace (Z.of_nat idx + (interval_type i + 7 * k - 1))
      with (Z.of_nat idx + (interval_type i - 1) + k * 7) by lia.
    rewrite Z_mod_plus_full, Z_div_plus_full by lia.
    destruct (nth_error _ _) as [new_letter|]; [|discriminate].
    cbn [bind of_option]. intros [= <- <-]. reflexivity.
Qed.

(** A third above c, and a seventeenth, which is a third and two
    octaves. *)
Lemma X10_witness_seventeenth_on_c :
  _get_new_diatonic_pitch_class_name_and_octave_count (pitch_named "c" 4)
    {| interval_type := 3 + DIATONIC_PITCH_CLASS_COUNT * 2;
       is_interval_falling := false;
       interval_quality_cent_deviation := 0 |}
  = Ok ("e"%string, 0 + 2).
Proof.
  exact (X10_octaves_of_a_compound_interval
           (pitch_named "c" 4) (rising 3) 2 "e" 0 eq_refl).
Defined.

(** ** Parsing an operand that has been parsed *)

(** X11: an operand that went through [_parse_pitch_interval] goes
    through it unchanged ever after, and is never a string; so [subtract],
    which parses the operand and hands the inverted interval to [add],
    where it is parsed again, has it parsed to itself there. *)
Theorem X11_a_parsed_operand_is_parsed_to_itself
  (of_str : string -> result WesternPitchInterval)
  (of_real : Q -> result WesternPitchInterval)
  (operand parsed : interval_operand) :
  _parse_pitch_interval of_str of_real operand = Ok parsed ->
  _parse_pitch_interval of_str of_real parsed = Ok parsed
  /\ (forall s, parsed <> OfStr s)
  /\ forall i,
      parsed = OfWesternPitchInterval i ->
      _parse_pitch_interval of_str of_real
        (OfWesternPitchInterval (inverse_direction i))
      = Ok (OfWesternPitchInterval (inverse_direction i)).
Proof.
  intros Hparse. split; [|split; [|reflexivity]].
  - destruct operand as [s|x|i|cents]; cbn in Hparse.
    + destruct (of_str s); [|discriminate]. injection Hparse as <-. reflexivity.
    + destruct (Qlt_le_dec _ _) as [Hnear|Hfar] eqn:Htest in Hparse.
      * destruct (of_real x); [|discriminate]. injection Hparse as <-.
        reflexivity.
      * injection Hparse as <-. cbn. now rewrite Htest.
    + injection Hparse as <-. reflexivity.
    + injection Hparse as <-. reflexivity.
  - intros s ->. destruct operand as [s'|x|i|cents]; cbn in Hparse.
    + destruct (of_str s'); discriminate.
    + destruct (Qlt_le_dec _ _); [|discriminate].
      destruct (of_real x); discriminate.
    + discriminate.
    + discriminate.
Qed.

(** A quarter tone, which stays a number. *)
Lemma X11_witness_half :
  _parse_pitch_interval interval_of_str interval_of_real (OfReal (1 # 2))
  = Ok (OfReal (1 # 2)).
Proof.
  exact (proj1 (X11_a_parsed_operand_is_parsed_to_itself
                  interval_of_str interval_of_real
                  (OfReal (1 # 2)) (OfReal (1 # 2)) eq_refl)).
Defined.

(** ** A pitch from its MIDI number *)

Lemma int_inject_Z (z : Z) : int (inject_Z z) = z.
Proof. unfold int, inject_Z. cbn [Qnum Qden]. apply Z.quot_1_r. Qed.

(** Floor quotient and remainder by a positive whole number. *)
Lemma floor_div_mod (x : Q) (m : Z) :
  0 < m ->
  (0 <= floor_mod x (inject_Z m))%Q
  /\ (floor_mod x (inject_Z m) < inject_Z m)%Q
  /\ (inject_Z (m * floor_div x (inject_Z m)) + floor_mod x (inject_Z m)
      == x)%Q.
Proof.
  intros Hm. unfold floor_mod, floor_div.
  assert (Hpos : (0 < inject_Z m)%Q)
    by (unfold Qlt, inject_Z; cbn; lia).
  assert (Hx : (x == (x / inject_Z m) * inject_Z m)%Q).
  { field. intros H. rewrite H in Hpos. apply (Qlt_irrefl 0 Hpos). }
  pose proof (Qfloor_le (x / inject_Z m)) as Hlo.
  pose proof (Qlt_floor (x / inject_Z m)) as Hhi.
  rewrite inject_Z_plus in Hhi. rewrite Qred_correct, inject_Z_mult.
  revert Hx Hlo Hhi Hpos.
  generalize (inject_Z (Qfloor (x / inject_Z m))) as q.
  generalize (x / inject_Z m)%Q as y.
  generalize (inject_Z m) as M.
  intros M y q Hx Hlo Hhi Hpos.
  change (inject_Z 1) with 1%Q in Hhi.
  repeat split.
  - rewrite Hx. nra.
  - rewrite Hx. nra.
  - ring.
Qed.

(** A whole number of few digits is a number a double holds. *)
Lemma whole_number_is_double (z : Z) :
  Z.abs z < 2 ^ 53 -> is_double (inject_Z z).
Proof.
  intros Hz. exists z, 0. split; [exact Hz|]. split; [lia|].
  cbn [Qpower]. ring.
Qed.

(** X12: a whole MIDI pitch number [n] is split into an octave and a
    pitch class by floor division: whenever the table of offsets is not
    empty the pitch is built, its pitch class is [n mod 12], a number
    from 0 to 11 that the conversion to a float leaves as it is, its
    octave is [n / 12 - 1], for negative numbers too, so that twelve
    times the octave plus one, plus the pitch class, give back [n], and
    its name is the one chosen for its pitch class. *)
Theorem X12_midi_pitch_number_is_split
  (ACC : list (string * Q)) (INV : list (Q * string)) (midi_pitch_number : Z) :
  INV <> [] ->
  exists p,
    from_midi_pitch_number ACC INV midi_pitch_number = Ok p
    /\ (_pitch_class p
        == inject_Z (midi_pitch_number mod CHROMATIC_PITCH_CLASS_COUNT))%Q
    /\ is_double (inject_Z (midi_pitch_number mod CHROMATIC_PITCH_CLASS_COUNT))
    /\ octave p = midi_pitch_number / CHROMATIC_PITCH_CLASS_COUNT - 1
    /\ (inject_Z (CHROMATIC_PITCH_CLASS_COUNT * (octave p + 1)) + _pitch_class p
        == inject_Z midi_pitch_number)%Q
    /\ name_follows_number INV p.
Proof.
  intros Hne. unfold from_midi_pitch_number, CHROMATIC_PITCH_CLASS_COUNT.
  rewrite int_inject_Z.
  replace (midi_pitch_number - 12) with (midi_pitch_number + (-1) * 12) by lia.
  rewrite Z_mod_plus_full, Z_div_plus_full by lia.
  pose proof (Z.mod_pos_bound midi_pitch_number 12 ltac:(lia)) as Hrange.
  pose proof (Z.div_mod midi_pitch_number 12 ltac:(lia)) as Hsplit.
  set (pitch_class := midi_pitch_number mod 12) in *.
  set (count := midi_pitch_number / 12) in *.
  destruct (number_to_name_closest INV (inject_Z pitch_class) Hne)
    as (letter & base & key & accidental & Hname & _).
  exists {| _pitch_class := float (inject_Z pitch_class);
            octave := count + -1;
            _pitch_class_name := letter +:+ accidental |}.
  assert (Hfloat : (float (inject_Z pitch_class) == inject_Z pitch_class)%Q)
    by apply Qred_correct.
  cbn [_pitch_class octave _pitch_class_name].
  split; [|split; [|split; [|split; [|split]]]].
  - unfold __init__.
    cbn [_pitch_class_or_pitch_class_name_to_pitch_class_and_pitch_class_name].
    rewrite Hname. reflexivity.
  - exact Hfloat.
  - apply whole_number_is_double.
    apply Z.lt_trans with 12; [|reflexivity].
    rewrite Z.abs_eq; apply Hrange.
  - lia.
  - rewrite Hfloat, <- inject_Z_plus.
    replace (12 * (count + -1 + 1) + pitch_class) with midi_pitch_number
      by lia.
    reflexivity.
  - unfold name_follows_number. cbn [_pitch_class _pitch_class_name].
    rewrite <- Hname. now apply number_to_name_Qeq.
Qed.

(** MIDI number 60 is c in octave 4. *)
Lemma X12_witness_middle_c :
  exists p,
    from_midi_pitch_number accidental_table modification_table 60 = Ok p
    /\ (_pitch_class p == inject_Z (60 mod CHROMATIC_PITCH_CLASS_COUNT))%Q
    /\ is_double (inject_Z (60 mod CHROMATIC_PITCH_CLASS_COUNT))
    /\ octave p = 60 / CHROMATIC_PITCH_CLASS_COUNT - 1.
Proof.
  destruct (X12_midi_pitch_number_is_split
              accidental_table modification_table 60 ltac:(discriminate))
    as (p & Hp & Hclass & Hdouble & Hoctave & _).
  exists p. auto.
Defined.

(** ** Pitches off the chromatic grid *)

Lemma floor_mod_one (q : Q) :
  Qeq_bool (floor_mod q 1) 0 = true <-> exists z : Z, (q == inject_Z z)%Q.
Proof.
  rewrite Qeq_bool_iff. unfold floor_mod, floor_div. rewrite Qred_correct.
  split.
  - intros H. exists (Qfloor (q / 1)). lra.
  - intros [z Hz].
    assert (Hq : (q / 1 == inject_Z z)%Q) by (rewrite Hz; field).
    rewrite Hq, Qfloor_Z. lra.
Qed.



(** ** The interval addition never fails of its own *)

Lemma diatonic_letter_in_tuple (letter : string) (base : Z) :
  dict_get DIATONIC_PITCH_NAME_TO_PITCH_CLASS_DICT letter = Some base ->
  exists idx, tuple_index ASCENDING_DIATONIC_PITCH_NAME_TUPLE letter = Some idx.
Proof.
  unfold DIATONIC_PITCH_NAME_TO_PITCH_CLASS_DICT. cbn [dict_get].
  repeat (destruct (String.eqb _ letter) eqn:E;
          [apply String.eqb_eq in E; subst letter; eexists; reflexivity|
           clear E]).
  discriminate.
Qed.

Lemma tuple_letter_in_dict (letter : string) :
  In letter ASCENDING_DIATONIC_PITCH_NAME_TUPLE ->
  exists base,
    dict_get DIATONIC_PITCH_NAME_TO_PITCH_CLASS_DICT letter = Some base.
Proof.
  intros Hin. unfold ASCENDING_DIATONIC_PITCH_NAME_TUPLE in Hin.
  repeat (destruct Hin as [<-|Hin]; [eexists; reflexivity|]).
  destruct Hin.
Qed.

Lemma tuple_index_In (t : list string) (x : string) (k : nat) :
  tuple_index t x = Some k -> In x t.
Proof. intros H. eapply nth_error_In, tuple_index_nth, H. Qed.

(** X14: the addition of a Western interval to a pitch whose number is
    the one its name stands for raises nothing of its own, whatever the
    interval: when the compensation table has an entry for every pair of
    letters and the two accidental tables are the one mapping read in
    both directions, it either ends on the diatonic path, without a
    warning and with a pitch whose number is again the one its name
    stands for, or emits the one warning and is what the base pitch type
    makes of the addition. *)
Theorem X14_interval_addition_raises_nothing_of_its_own
  (ACC : list (string * Q)) (INV : list (Q * string))
  (COMP : list ((string * string) * Q))
  (super_add : WesternPitch -> interval_operand -> result WesternPitch)
  (self : WesternPitch) (i : WesternPitchInterval) :
  tables_agree ACC INV = true ->
  (forall a b,
      In a ASCENDING_DIATONIC_PITCH_NAME_TUPLE ->
      In b ASCENDING_DIATONIC_PITCH_NAME_TUPLE ->
      exists compensation, dict_get_pair COMP (a, b) = Some compensation) ->
  number_follows_name ACC self ->
  (exists after,
      _add_western_pitch_interval ACC INV COMP super_add self i
      = (Ok after, [])
      /\ number_follows_name ACC after)
  \/ _add_western_pitch_interval ACC INV COMP super_add self i
     = (super_add self (OfWesternPitchInterval i), [RuntimeWarning]).
Proof.
  intros Hagree Hcomplete Hfollows.
  assert (Hparts : exists c rest base offset,
             _pitch_class_name self = String c rest
             /\ dict_get DIATONIC_PITCH_NAME_TO_PITCH_CLASS_DICT
                  (String c EmptyString) = Some base
             /\ dict_get ACC rest = Some offset).
  { unfold number_follows_name, _pitch_class_name_to_pitch_class in Hfollows.
    destruct (_pitch_class_name self) as [|c rest]; [discriminate|].
    cbn [str_first str_rest bind] in Hfollows.
    destruct (dict_get DIATONIC_PITCH_NAME_TO_PITCH_CLASS_DICT _)
      as [base|] eqn:Hbase; [|discriminate].
    cbn [bind of_option] in Hfollows.
    unfold _accidental_to_pitch_class_modifications in Hfollows.
    destruct (dict_get ACC rest) as [offset|] eqn:Hoffset; [|discriminate].
    exists c, rest, base, offset. auto. }
  destruct Hparts as (c & rest & base & offset & Hname & Hbase & Hoffset).
  assert (Hletter : diatonic_pitch_class_name self = Ok (String c EmptyString))
    by (unfold diatonic_pitch_class_name, pitch_class_name; now rewrite Hname).
  assert (Haccidental : accidental_name self = rest)
    by (unfold accidental_name, pitch_class_name; now rewrite Hname).
  destruct (diatonic_letter_in_tuple _ _ Hbase) as [idx Hidx].
  destruct (stepping_result self i _ idx Hletter Hidx) as (c1 & Hstep & Hback).
  pose proof (tuple_index_In _ _ _ Hidx) as Hin.
  pose proof (tuple_index_In _ _ _ Hback) as Hin1.
  assert (Hpair : exists compensation,
             dict_get_pair COMP
               (if is_interval_falling i
                then (String c1 EmptyString, String c EmptyString)
                else (String c EmptyString, String c1 EmptyString))
             = Some compensation)
    by (destruct (is_interval_falling i); now apply Hcomplete).
  destruct Hpair as [compensation Hpair].
  unfold _add_western_pitch_interval. rewrite Hstep.
  unfold _get_new_pitch_class_modification.
  rewrite Hletter. cbn [bind]. rewrite Hpair. cbn [bind of_option].
  rewrite Haccidental, Hoffset. cbn [bind of_option].
  destruct (dict_get_num INV _) as [accidental|] eqn:Hnum; [left|now right].
  destruct (agree_name_has_offset ACC INV Hagree _ accidental Hnum)
    as (offset1 & Hoffset1 & _).
  destruct (tuple_letter_in_dict _ Hin1) as [base1 Hbase1].
  pose proof (name_to_number_split ACC _ accidental base1 Hbase1) as Hnumber.
  rewrite Hoffset1 in Hnumber.
  unfold silent, set_pitch_class_name. rewrite Hnumber. cbn [bind].
  eexists. split; [reflexivity|].
  unfold number_follows_name. cbn [_pitch_class _pitch_class_name].
  exact Hnumber.
Qed.

Lemma compensation_table_complete (a b : string) :
  In a ASCENDING_DIATONIC_PITCH_NAME_TUPLE ->
  In b ASCENDING_DIATONIC_PITCH_NAME_TUPLE ->
  exists compensation,
    dict_get_pair compensation_table (a, b) = Some compensation.
Proof.
  intros Ha Hb. unfold ASCENDING_DIATONIC_PITCH_NAME_TUPLE in Ha, Hb.
  repeat (destruct Ha as [<-|Ha];
          [repeat (destruct Hb as [<-|Hb];
                   [eexists; vm_compute; reflexivity|]);
           destruct Hb|]).
  destruct Ha.
Qed.

(** A third above b double-sharp: there is no name for the result, and
    the base addition takes over. *)
Lemma X14_witness_third_on_b_double_sharp :
  (exists after,
      _add_western_pitch_interval accidental_table modification_table
        compensation_table numeric_add (pitch_named "bss" 4) (rising 3)
      = (Ok after, [])
      /\ number_follows_name accidental_table after)
  \/ _add_western_pitch_interval accidental_table modification_table
       compensation_table numeric_add (pitch_named "bss" 4) (rising 3)
     = (numeric_add (pitch_named "bss" 4) (OfWesternPitchInterval (rising 3)),
        [RuntimeWarning]).
Proof.
  exact (X14_interval_addition_raises_nothing_of_its_own
           accidental_table modification_table compensation_table numeric_add
           (pitch_named "bss" 4) (rising 3)
           eq_refl compensation_table_complete eq_refl).
Defined.

(** ** The fallback of the interval addition *)

(** The generic addition of the base pitch type completes on every
    pitch and every size when the table of offsets is not empty: the
    pitch class is reduced into the octave, the octave takes the
    overflow, and the name is the one chosen for the pitch class. *)
Lemma generic_shift_spec (INV : list (Q * string)) (self : WesternPitch) (n : Q) :
  INV <> [] ->
  exists after,
    generic_shift INV self n = Ok after
    /\ (0 <= _pitch_class after)%Q
    /\ (_pitch_class after < inject_Z CHROMATIC_PITCH_CLASS_COUNT)%Q
    /\ (inject_Z (CHROMATIC_PITCH_CLASS_COUNT * octave after)
        + _pitch_class after
        == inject_Z (CHROMATIC_PITCH_CLASS_COUNT * octave self)
           + _pitch_class self + n)%Q
    /\ name_follows_number INV after.
Proof.
  intros Hne. unfold generic_shift, set_pitch_class, CHROMATIC_PITCH_CLASS_COUNT.
  set (moved := (_pitch_class self + n)%Q).
  destruct (floor_div_mod moved 12 ltac:(lia)) as (Hlo & Hhi & Hsum).
  unfold floor_mod, floor_div in Hlo, Hhi, Hsum.
  set (count := Qfloor (moved / inject_Z 12)) in *.
  assert (Hsame : (Qred (moved - inject_Z (count * 12))
                   == Qred (moved - inject_Z count * inject_Z 12))%Q)
    by (rewrite !Qred_correct, inject_Z_mult; reflexivity).
  destruct (number_to_name_closest INV (Qred (moved - inject_Z (count * 12))) Hne)
    as (letter & base & key & accidental & Hname & _).
  rewrite Hname. cbn [bind octave _pitch_class _pitch_class_name].
  eexists. split; [reflexivity|].
  cbn [octave _pitch_class _pitch_class_name].
  split; [now rewrite Hsame|]. split; [now rewrite Hsame|]. split.
  - rewrite Hsame. rewrite Z.mul_add_distr_l, inject_Z_plus.
    rewrite <- Qplus_assoc, Hsum. subst moved. ring.
  - exact Hname.
Qed.

(** C6: when the pitch-class modification computed for the new letter
    has no entry in the table of accidental names, the interval addition
    raises nothing of its own, whatever the base pitch type is: it emits
    one [RuntimeWarning] and hands the pitch and the interval to the
    addition of the base pitch type.  With the generic numeric addition
    of the base pitch type it does not raise and completes with the
    pitch that addition returns, which is numerically correct: its pitch class lies from 0 up to but excluding 12, twelve
    times its octave plus its pitch class is the number of the pitch
    one started from plus the size of the interval in semitones, and
    its name is the one chosen for its pitch class. *)
Theorem C6_missing_accidental_falls_back
  (ACC : list (string * Q)) (INV : list (Q * string))
  (COMP : list ((string * string) * Q))
  (of_str : string -> result WesternPitchInterval)
  (of_real : Q -> result WesternPitchInterval)
  (self : WesternPitch) (i : WesternPitchInterval)
  (letter : string) (count : Z) (modification : Q) :
  INV <> [] ->
  _get_new_diatonic_pitch_class_name_and_octave_count self i
  = Ok (letter, count) ->
  _get_new_pitch_class_modification ACC COMP self i letter = Ok modification ->
  dict_get_num INV modification = None ->
  exists after,
    add ACC INV COMP of_str of_real (generic_add INV) self
      (OfWesternPitchInterval i)
    = (Ok after, [RuntimeWarning])
    /\ (forall super_add,
           add ACC INV COMP of_str of_real super_add self
             (OfWesternPitchInterval i)
           = (super_add self (OfWesternPitchInterval i), [RuntimeWarning]))
    /\ _add_western_pitch_interval ACC INV COMP (generic_add INV) self i
       = (Ok after, [RuntimeWarning])
    /\ generic_add INV self (OfWesternPitchInterval i) = Ok after
    /\ (0 <= _pitch_class after)%Q
    /\ (_pitch_class after < inject_Z CHROMATIC_PITCH_CLASS_COUNT)%Q
    /\ (inject_Z (CHROMATIC_PITCH_CLASS_COUNT * octave after)
        + _pitch_class after
        == inject_Z (CHROMATIC_PITCH_CLASS_COUNT * octave self)
           + _pitch_class self + interval_semitones i)%Q
    /\ name_follows_number INV after.
Proof.
  intros Hne Hstep Hmod Hnone.
  destruct (generic_shift_spec INV self (interval_semitones i) Hne)
    as (after & Hshift & Hlo & Hhi & Hsum & Hname).
  assert (Hbase : generic_add INV self (OfWesternPitchInterval i) = Ok after)
    by exact Hshift.
  assert (Hany : forall super_add,
             _add_western_pitch_interval ACC INV COMP super_add self i
             = (super_add self (OfWesternPitchInterval i), [RuntimeWarning])).
  { intros super_add. unfold _add_western_pitch_interval.
    rewrite Hstep, Hmod, Hnone. reflexivity. }
  assert (H : _add_western_pitch_interval ACC INV COMP (generic_add INV) self i
              = (Ok after, [RuntimeWarning]))
    by (rewrite Hany, Hbase; reflexivity).
  exists after. split; [exact H|]. split; [exact Hany|]. auto 10.
Qed.

(** An augmented unison on b double sharp: the modification is three
    semitones, which no accidental names; the pitch is d, an octave
    up. *)
Lemma C6_witness_b_double_sharp :
  exists after,
    pitch_add (pitch_named "bss" 4)
      (OfWesternPitchInterval
         {| interval_type := 1;
            is_interval_falling := false;
            interval_quality_cent_deviation := 100 |})
    = (Ok after, [RuntimeWarning])
    /\ (inject_Z (CHROMATIC_PITCH_CLASS_COUNT * octave after)
        + _pitch_class after
        == inject_Z (CHROMATIC_PITCH_CLASS_COUNT * 4) + 13 + 1)%Q.
Proof.
  destruct (C6_missing_accidental_falls_back
              accidental_table modification_table compensation_table
              interval_of_str interval_of_real
              (pitch_named "bss" 4)
              {| interval_type := 1;
                 is_interval_falling := false;
                 interval_quality_cent_deviation := 100 |}
              "b" 0 3%Q ltac:(discriminate) eq_refl eq_refl eq_refl)
    as (after & Hadd & _ & _ & _ & _ & _ & Hsum & _).
  exists after. split; [exact Hadd|exact Hsum].
Defined.

(** ** Name and number of a pitch *)


Section Consistency.

Variable ACC : list (string * Q).
Variable INV : list (Q * string).
Variable COMP : list ((string * string) * Q).
Variable of_str : string -> result WesternPitchInterval.
Variable of_real : Q -> result WesternPitchInterval.
Variable super_add : WesternPitch -> interval_operand -> result WesternPitch.
Variable super_subtract : WesternPitch -> interval_operand -> result WesternPitch.

(** The base pitch type stores a pitch class through its setter. *)
Hypothesis super_add_sets_the_number :
  forall self operand after,
    super_add self operand = Ok after -> name_follows_number INV after.
Hypothesis super_subtract_sets_the_number :
  forall self operand after,
    super_subtract self operand = Ok after -> name_follows_number INV after.

Local Abbreviation run :=
  (perform_all ACC INV COMP of_str of_real super_add super_subtract).

(** Whatever the pitch was, the pitch an operation leaves has one
    representation that follows the other. *)
Lemma perform_consistent (self after : WesternPitch) (op : operation) :
  perform ACC INV COMP of_str of_real super_add super_subtract self op
  = Ok after ->
  consistent ACC INV after.
Proof.
  destruct op as [name|x|operand|operand]; cbn [perform]; intros H.
  - left. now destruct (set_pitch_class_name_spec ACC self after name H)
      as (_ & _ & ?).
  - right. now destruct (set_pitch_class_spec INV self after x H)
      as (_ & _ & ?).
  - destruct (add ACC INV COMP of_str of_real super_add self operand)
      as [r w] eqn:Hadd.
    cbn [fst] in H. subst r.
    destruct (add_spec ACC INV COMP of_str of_real super_add
                self after operand w Hadd) as [Hn|[handed Hh]];
      [now left|right; eauto].
  - destruct (subtract ACC INV COMP of_str of_real super_add super_subtract
                self operand) as [r w] eqn:Hsub.
    cbn [fst] in H. subst r. unfold subtract in Hsub.
    destruct (_parse_pitch_interval of_str of_real operand) as [parsed|e];
      [|discriminate].
    destruct parsed as [s|x|i|cents];
      try (injection Hsub as Hsub _; right; eauto).
    destruct (add_spec ACC INV COMP of_str of_real super_add
                self after _ w Hsub) as [Hn|[handed Hh]];
      [now left|right; eauto].
Qed.

Lemma run_consistent (operations : list operation) :
  forall self after,
    consistent ACC INV self ->
    run operations self = Ok after ->
    consistent ACC INV after.
Proof.
  induction operations as [|op rest IH]; intros self after Hself Hrun.
  - injection Hrun as <-. exact Hself.
  - cbn [perform_all] in Hrun.
    destruct (perform ACC INV COMP of_str of_real super_add super_subtract
                self op) as [next|e] eqn:Hop; [|discriminate].
    cbn [bind] in Hrun.
    apply (IH next after); [|exact Hrun].
    now apply perform_consistent with self op.
Qed.

End Consistency.

(** The generic addition and subtraction store the pitch class through
    its setter. *)
Lemma generic_shift_sets_the_number
  (INV : list (Q * string)) (self after : WesternPitch) (n : Q) :
  generic_shift INV self n = Ok after -> name_follows_number INV after.
Proof.
  unfold generic_shift. intros H.
  now destruct (set_pitch_class_spec INV _ after _ H) as (_ & _ & ?).
Qed.

Lemma generic_add_sets_the_number
  (INV : list (Q * string)) (self : WesternPitch) (operand : interval_operand)
  (after : WesternPitch) :
  generic_add INV self operand = Ok after -> name_follows_number INV after.
Proof.
  unfold generic_add. destruct (operand_semitones operand); [|discriminate].
  apply generic_shift_sets_the_number.
Qed.

Lemma generic_subtract_sets_the_number
  (INV : list (Q * string)) (self : WesternPitch) (operand : interval_operand)
  (after : WesternPitch) :
  generic_subtract INV self operand = Ok after -> name_follows_number INV after.
Proof.
  unfold generic_subtract. destruct (operand_semitones operand); [|discriminate].
  apply generic_shift_sets_the_number.
Qed.


